(** * pyOTF [zernike.py]: Noll index mapper and Zernike polynomial evaluator

    A shallow embedding of [src/zernike.py].  The index mapper
    ([noll_mapping], [noll_inverse], [noll2degrees], [degrees2noll]) is
    integer code and is embedded over [Z]; the evaluator ([_radial_zernike],
    [_zernike], [zernike]) is embedded further down over an idealised model
    of float64 values. *)

From Stdlib Require Import String ZArith List Bool Lia Reals Lra.
Import ListNotations.

Open Scope Z_scope.

(** ** Python exceptions and results *)

(** The exceptions the module can raise.  [ValueError] and [RuntimeError]
    are raised by the module itself, [IndexError] by numpy indexing. *)
Inductive exn : Type :=
| ValueError
| IndexError
| RuntimeError.

Inductive result (A : Type) : Type :=
| Ok (a : A)
| Raise (e : exn).

Arguments Ok {A} a.
Arguments Raise {A} e.

Definition bind {A B : Type} (x : result A) (f : A -> result B) : result B :=
  match x with
  | Ok a => f a
  | Raise e => Raise e
  end.

Notation "x <- c1 ;; c2" := (bind c1 (fun x => c2))
  (at level 61, c1 at next level, right associativity).

(** All-or-nothing traversal: the first failure is the failure of the whole. *)
Fixpoint mapM {A B : Type} (f : A -> result B) (l : list A) : result (list B) :=
  match l with
  | [] => Ok []
  | a :: l' => b <- f a ;; bs <- mapM f l' ;; Ok (b :: bs)
  end.

(** ** The part of numpy the index mapper relies on *)

(** int64 arithmetic wraps around silently on arrays. *)
Definition wrap64 (z : Z) : Z := (z + 2 ^ 63) mod 2 ^ 64 - 2 ^ 63.

Definition i64_add (a b : Z) : Z := wrap64 (a + b).
Definition i64_sub (a b : Z) : Z := wrap64 (a - b).
Definition i64_mul (a b : Z) : Z := wrap64 (a * b).

(** [a[i]] for an integer [i]: negative indices count from the end, anything
    outside [-len, len) raises [IndexError]. *)
Definition getitem (a : list Z) (i : Z) : result Z :=
  let len := Z.of_nat (length a) in
  if (0 <=? i) && (i <? len) then Ok (nth (Z.to_nat i) a 0)
  else if (- len <=? i) && (i <? 0) then Ok (nth (Z.to_nat (i + len)) a 0)
  else Raise IndexError.

(** [a[idx]] for an integer index array [idx]. *)
Definition take (a : list Z) (idx : list Z) : result (list Z) :=
  mapM (getitem a) idx.

(** [a.argsort()]: the positions of the elements of [a], smallest element
    first.  The entries of the table below are pairwise distinct, so the
    order does not depend on the sorting algorithm. *)
Fixpoint insert_by_key (x : Z * nat) (l : list (Z * nat)) : list (Z * nat) :=
  match l with
  | [] => [x]
  | y :: l' => if fst x <=? fst y then x :: y :: l' else y :: insert_by_key x l'
  end.

Definition sort_by_key (l : list (Z * nat)) : list (Z * nat) :=
  fold_right insert_by_key [] l.

Definition argsort (a : list Z) : list Z :=
  map (fun kv => Z.of_nat (snd kv)) (sort_by_key (combine a (seq 0 (length a)))).

(** [np.ceil(x / 2)] for an integer-valued [x]. *)
Definition ceil_half (x : Z) : Z := - ((- x) / 2).

(** An argument after [np.asarray]: either an array whose dtype passes
    [np.issubdtype(dtype, int)], given by its int64 elements in row-major
    order, or an array of any other dtype. *)
Inductive intarg : Type :=
| IntArr (xs : list Z)
| NotIntArr.

(** ** The index mapper *)

(** forward mapping of Noll indices *)
Definition noll_mapping : list Z :=
  [ 1; 3; 2; 5; 4; 6; 9; 7; 8; 10; 15; 13; 11; 12; 14; 21; 19; 17; 16;
    18; 20; 27; 25; 23; 22; 24; 26; 28; 35; 33; 31; 29; 30; 32; 34;
    36; 45; 43; 41; 39; 37; 38; 40; 42; 44; 55; 53; 51; 49; 47; 46;
    48; 50; 52; 54; 65; 63; 61; 59; 57; 56; 58; 60; 62; 64; 66; 77;
    75; 73; 71; 69; 67; 68; 70; 72; 74; 76; 78; 91; 89; 87; 85; 83;
    81; 79; 80; 82; 84; 86; 88; 90; 105; 103; 101; 99; 97; 95; 93;
    92; 94; 96; 98; 100; 102; 104; 119; 117; 115; 113; 111; 109;
    107; 106; 108; 110; 112; 114; 116; 118; 120 ].

(** reverse mapping of noll indices *)
Definition noll_inverse : list Z := argsort noll_mapping.

(** [np.ceil((-3 + np.sqrt(9 + 8 * p)) / 2)].  The source computes this in
    float64.  [9 + 8 * p] is an exactly representable integer, [np.sqrt] is
    correctly rounded, so the square root of a perfect square is exact and
    any other square root stays strictly between two consecutive integers;
    the ceiling taken by the source is therefore the ceiling of the real
    number, which is what is written here ([Z.sqrt_up] is the ceiling of the
    square root).  This holds for the positions of the table (below 120)
    and as long as [p < 2 ^ 48]; from about [2 ^ 52] on float64 rounds and
    the source departs from this definition.  [radial_of_position_real]
    below relates this definition to the expression over the reals. *)
Definition radial_of_position (p : Z) : Z :=
  ceil_half (-3 + Z.sqrt_up (i64_add 9 (i64_mul 8 p))).

(** [2 * p - n * (n + 2)], computed in float64; exact on the integers it
    meets as long as [n * (n + 2) < 2 ^ 53], which [p < 2 ^ 48] ensures. *)
Definition azimuthal_of_position (p n : Z) : Z := 2 * p - n * (n + 2).

(** Convert from Noll's indices to radial degree and azimuthal degree *)
Definition noll2degrees (noll : intarg) : result (list Z * list Z) :=
  match noll with
  | NotIntArr => Raise ValueError
  | IntArr xs =>
      if negb (forallb (fun x => 0 <? x) xs) then Raise ValueError
      else
        (* need to subtract 1 from the Noll's indices because they start at 1. *)
        p <- take noll_inverse (map (fun x => i64_sub x 1) xs) ;;
        let n := map radial_of_position p in
        let m := map (fun pn => azimuthal_of_position (fst pn) (snd pn))
                     (combine p n) in
        Ok (n, m)
  end.

(** Convert from radial and azimuthal degrees to Noll's index.  [n] and [m]
    are taken to have the same shape, hence the same number of elements
    (numpy broadcasts arrays of different shapes or raises [ValueError];
    that is not modelled); the position
    [(m + n * (n + 2)) / 2] is a true division followed by [astype(int)],
    that is a truncation ([Z.quot]). *)
Definition degrees2noll (n m : intarg) : result (list Z) :=
  match n with
  | NotIntArr => Raise ValueError
  | IntArr ns =>
      match m with
      | NotIntArr => Raise ValueError
      | IntArr ms =>
          let nm := combine ns ms in
          if existsb (fun x => negb (i64_sub (fst x) (snd x) mod 2 =? 0)) nm
          then Raise ValueError
          else
            (* do the mapping *)
            let p := map (fun x =>
                            Z.quot (i64_add (snd x)
                                      (i64_mul (fst x) (i64_add (fst x) 2))) 2)
                         nm in
            take noll_mapping p
      end
  end.

(** Scalar calls: a single Noll index, a single degree pair. *)
Definition noll2degrees1 (j : Z) : result (Z * Z) :=
  r <- noll2degrees (IntArr [j]) ;;
  match r with
  | ([n], [m]) => Ok (n, m)
  | _ => Raise RuntimeError
  end.

Definition degrees2noll1 (n m : Z) : result Z :=
  r <- degrees2noll (IntArr [n]) (IntArr [m]) ;;
  match r with
  | [j] => Ok j
  | _ => Raise RuntimeError
  end.

(** ** Noll's canonical ordering, generated

    The ordering as the specification describes it: radial degrees in
    increasing order; within a radial degree the absolute azimuthal degrees
    of the same parity in increasing order; one index for [|m| = 0], two
    consecutive indices for [|m| > 0], the order of the two signs being
    keyed on [n mod 4].  [sine_first n = true] gives the lower index of each
    pair of radial degree [n] to the negative (sine) member. *)

Definition abs_degrees (n : nat) : list Z :=
  filter (fun a => a mod 2 =? Z.of_nat n mod 2) (map Z.of_nat (seq 0 (S n))).

Definition noll_row (sine_first : Z -> bool) (n : nat) : list (Z * Z) :=
  flat_map (fun a =>
              if a =? 0 then [(Z.of_nat n, 0)]
              else if sine_first (Z.of_nat n)
                   then [(Z.of_nat n, - a); (Z.of_nat n, a)]
                   else [(Z.of_nat n, a); (Z.of_nat n, - a)])
           (abs_degrees n).

(** The ordering restricted to the radial degrees [0 .. rows - 1]. *)
Definition noll_order (sine_first : Z -> bool) (rows : nat) : list (Z * Z) :=
  flat_map (noll_row sine_first) (seq 0 rows).

(** The sign rule in the words of the specification: sine first, then
    cosine, for [n mod 4] in {0, 1}; reversed for [n mod 4] in {2, 3}. *)
Definition sine_first_as_worded (n : Z) : bool :=
  (n mod 4 =? 0) || (n mod 4 =? 1).

(** The sign rule with the two classes exchanged: cosine first for
    [n mod 4] in {0, 1}, sine first for [n mod 4] in {2, 3}. *)
Definition sine_first_exchanged (n : Z) : bool :=
  (n mod 4 =? 2) || (n mod 4 =? 3).

(** The table a generated ordering gives rise to.  [degrees2noll] reads the
    entry of [(n, m)] at position [(m + n * (n + 2)) / 2]; the pairs in the
    order of that position are [(0, 0)], [(1, -1)], [(1, 1)], [(2, -2)],
    ..., and the entry of a pair is its rank, counted from 1, in the
    ordering. *)
Definition pairs_by_position (rows : nat) : list (Z * Z) :=
  flat_map (fun n => map (fun k => (Z.of_nat n, 2 * Z.of_nat k - Z.of_nat n))
                         (seq 0 (S n)))
           (seq 0 rows).

Definition position (nm : Z * Z) : Z := (snd nm + fst nm * (fst nm + 2)) / 2.

Fixpoint index_of (nm : Z * Z) (l : list (Z * Z)) : nat :=
  match l with
  | [] => 0
  | x :: l' => if (fst x =? fst nm) && (snd x =? snd nm) then 0
               else S (index_of nm l')
  end.

Definition generated_table (sine_first : Z -> bool) (rows : nat) : list Z :=
  map (fun nm => 1 + Z.of_nat (index_of nm (noll_order sine_first rows)))
      (pairs_by_position rows).

(** The table entry [degrees2noll] reads for the pair [(n, m)]. *)
Definition table_entry (nm : Z * Z) : Z :=
  nth (Z.to_nat (position nm)) noll_mapping 0.

(** The degree pair of rank [j] (counted from 1) in the generated order. *)
Definition noll_rank (j : Z) : Z * Z :=
  nth (Z.to_nat (j - 1)) (noll_order sine_first_exchanged 15) (0, 0).

(** The indices 1 .. 120 covered by the table. *)
Definition table_indices : list Z := map Z.of_nat (seq 1 120).

(** ** Arrays and float64 values

    An array is its shape and its elements in row-major order. *)
Record ndarray (A : Type) : Type := mk_ndarray {
  shape : list nat;
  data : list A
}.

Arguments mk_ndarray {A} shape data.
Arguments shape {A} n.
Arguments data {A} n.

Definition ndim {A : Type} (a : ndarray A) : nat := length (shape a).

(** [a.squeeze()]: the axes of length one are removed, the elements stay. *)
Definition squeeze {A : Type} (a : ndarray A) : ndarray A :=
  mk_ndarray (filter (fun d => negb (Nat.eqb d 1)) (shape a)) (data a).

(** A float64 value.  Finite values are idealised as exact reals: rounding,
    overflow and underflow are not modelled, and [-0.0] is [Fin 0].  [Inf]
    is an infinity of either sign, [NaN] is not-a-number.  The sample
    arrays [r] and [theta] hold finite values, hence reals; the values
    computed from them are [npfloat]s. *)
Inductive npfloat : Type :=
| Fin (x : R)
| Inf
| NaN.

Definition is_zero (x : R) : bool := if Req_dec_T x 0 then true else false.

(** [x * y] *)
Definition fmul (x y : npfloat) : npfloat :=
  match x, y with
  | Fin a, Fin b => Fin (a * b)
  | NaN, _ | _, NaN => NaN
  | Inf, Fin b => if is_zero b then NaN else Inf
  | Fin a, Inf => if is_zero a then NaN else Inf
  | Inf, Inf => Inf
  end.

(** [x / y]; numpy warns on a zero divisor and returns nan or inf. *)
Definition fdiv (x y : npfloat) : npfloat :=
  match x, y with
  | Fin a, Fin b =>
      if is_zero b then (if is_zero a then NaN else Inf) else Fin (a / b)
  | NaN, _ | _, NaN => NaN
  | Fin _, Inf => Fin 0
  | Inf, Fin _ => Inf
  | Inf, Inf => NaN
  end.

(** [x ** k] for a finite [x] and an integer [k]. *)
Definition fpow (x : R) (k : Z) : npfloat :=
  if 0 <=? k then Fin (x ^ Z.to_nat k)
  else if is_zero x then Inf
  else Fin (/ (x ^ Z.to_nat (- k))).

(** [x + y] for summands that are squares: an infinite square is [+inf],
    so no [inf - inf] arises. *)
Definition fadd_squares (x y : npfloat) : npfloat :=
  match x, y with
  | Fin a, Fin b => Fin (a + b)
  | NaN, _ | _, NaN => NaN
  | _, _ => Inf
  end.

(** [np.sqrt] of a sum of squares. *)
Definition fsqrt (x : npfloat) : npfloat :=
  match x with
  | Fin a => Fin (sqrt a)
  | Inf => Inf
  | NaN => NaN
  end.

(** [np.linalg.norm(x)] of a flat array: [sqrt(x.dot(x))]. *)
Definition linalg_norm (x : list npfloat) : npfloat :=
  fsqrt (fold_left (fun acc xi => fadd_squares acc (fmul xi xi)) x (Fin 0)).

(** [r <= 1.0] *)
Definition le_one (x : R) : bool := if Rle_dec x 1 then true else false.

(** The two functions of [scipy.special] the evaluator calls.  They are not
    part of this repository and are left open. *)
Class scipy_special : Type := {
  binom : Z -> Z -> npfloat;
  hyp2f1 : Z -> Z -> Z -> npfloat -> npfloat
}.

(** ** The evaluator *)

Section Evaluator.

Context {special : scipy_special}.

(** The radial part of the zernike polynomial *)
Definition _radial_zernike (r : list R) (n m : Z) : list npfloat :=
  (* zernike polynomials are only valid for r <= 1 *)
  if (m =? 0) && (n =? 0) then
    map (fun x => if le_one x then Fin 1 else Fin 0) r
  else
    let bincoef := binom n (i64_add n m / 2) in
    map (fun x =>
           if le_one x then
             let rn := fpow x n in
             let hyper := hyp2f1 (wrap64 (- i64_add n m) / 2)
                                 (wrap64 (- i64_sub n m) / 2)
                                 (wrap64 (- n))
                                 (fpow x (-2)) in
             fmul (fmul bincoef rn) hyper
           else Fin 0)
        r.

(** [zern *= f(m * theta)], element by element; [theta] has the shape of
    [r] (broadcasting between different shapes is not modelled). *)
Definition imul_angular (f : R -> R) (m : Z) (zern : list npfloat)
    (theta : list R) : list npfloat :=
  map (fun zt => fmul (fst zt) (Fin (f (IZR m * snd zt)%R))) (combine zern theta).

(** The actual function that calculates the full zernike polynomial *)
Definition _zernike (r theta : list R) (n m : Z) (norm : bool) : list npfloat :=
  (* if m and n aren't seperated by two then return zeros *)
  if negb (i64_sub m n mod 2 =? 0) then map (fun _ => Fin 0) r
  else
    let zern := _radial_zernike r n m in
    let zern := if m <? 0
                then (* odd zernike *) imul_angular sin m zern theta
                else (* even zernike *) imul_angular cos m zern theta in
    (* calculate the normalization factor *)
    if norm then
      let nrm := linalg_norm zern in map (fun z => fdiv z nrm) zern
    else zern.

(** The array of [_zernike] before its normalisation step, for a pair of
    even difference. *)
Definition angular_part (r theta : list R) (n m : Z) : list npfloat :=
  if m <? 0 then imul_angular sin m (_radial_zernike r n m) theta
  else imul_angular cos m (_radial_zernike r n m) theta.

(** [**kwargs]: the only keyword is [norm], [True] when it is left out. *)
Definition norm_kwarg (kwargs : option bool) : bool :=
  match kwargs with
  | Some b => b
  | None => true
  end.

(** The positional selector [*args] resolved to the flat sequences of
    radial and azimuthal degrees.  Selector arrays hold integers. *)
Definition resolve_args (args : list (ndarray Z)) : result (list Z * list Z) :=
  match args with
  | [a] =>
      if (ndim a <? 2)%nat then noll2degrees (IntArr (data a))
      else if (ndim a =? 2)%nat then
        if (hd 0%nat (shape a) =? 2)%nat then
          let k := nth 1 (shape a) 0%nat in
          Ok (firstn k (data a), skipn k (data a))
        else Raise RuntimeError
      else Raise ValueError
  | [n; m] =>
      (* [np.asarray(args)] already needs equal shapes; all three checks of
         the source raise the same exception *)
      if list_eq_dec Nat.eq_dec (shape n) (shape m) then
        if (1 <? ndim n)%nat then Raise ValueError
        else if (1 <? ndim m)%nat then Raise ValueError
        else Ok (data n, data m)
      else Raise ValueError
  | _ => Raise ValueError
  end.

(** [np.array([...])] of [k] arrays of shape [s]. *)
Definition stack {A : Type} (s : list nat) (rows : list (list A)) : ndarray A :=
  match rows with
  | [] => mk_ndarray [0%nat] []
  | _ => mk_ndarray (length rows :: s) (concat rows)
  end.

(** Calculates the Zernike polynomial on the unit disk for the requested
    orders *)
Definition zernike (r theta : ndarray R) (args : list (ndarray Z))
    (kwargs : option bool) : result (ndarray npfloat) :=
  nm <- resolve_args args ;;
  (* make sure r and theta are arrays *)
  if (2 <? ndim r)%nat then Raise ValueError
  else
    (* return column of zernike polynomials *)
    Ok (squeeze
          (stack (shape r)
             (map (fun d => _zernike (data r) (data theta) (fst d) (snd d)
                              (norm_kwarg kwargs))
                  (combine (fst nm) (snd nm))))).

End Evaluator.

(** A 0-d array (a scalar argument) and a 1-d array (a sequence). *)
Definition scalar (z : Z) : ndarray Z := mk_ndarray [] [z].
Definition vector (zs : list Z) : ndarray Z := mk_ndarray [length zs] zs.

(** The shape [squeeze] leaves. *)
Definition squeezed (s : list nat) : list nat :=
  filter (fun d => negb (Nat.eqb d 1)) s.


(** The radial polynomial in closed form, as the literature gives it for
    [n - m] even and [0 <= m <= n]:
    the sum over [k = 0 .. (n - m) / 2] of
    [(-1)^k (n - k)! / (k! ((n + m) / 2 - k)! ((n - m) / 2 - k)!) rho^(n - 2 k)].
    It is the reference the value at the origin is compared with. *)
Definition radial_polynomial (n m : nat) (rho : R) : R :=
  fold_right Rplus 0%R
    (map (fun k =>
            ((-1) ^ k * INR (fact (n - k))
             / (INR (fact k) * INR (fact ((n + m) / 2 - k))
                * INR (fact ((n - m) / 2 - k)))
             * rho ^ (n - 2 * k))%R)
         (seq 0 (S ((n - m) / 2)))).

(** The sum of the squares of a list of reals. *)
Definition sum_squares (xs : list R) : R :=
  fold_right (fun x s => (x * x + s)%R) 0%R xs.

(** Closed examples need some instance of [scipy_special].  They all
    evaluate the piston (0, 0), for which [_radial_zernike] returns before
    it calls into scipy, so the instance is immaterial; this one answers
    [NaN] throughout. *)
Definition nan_special : scipy_special :=
  {| binom := fun _ _ => NaN; hyp2f1 := fun _ _ _ _ => NaN |}.

(** ** Decision procedures for the finite checks *)

Definition valid_pair (n m : Z) : Prop :=
  0 <= n /\ Z.abs m <= n /\ (n - m) mod 2 = 0.

(** The position [noll2degrees] reads from [noll_inverse] for the index [j]. *)
Definition position_of (j : Z) : Z := nth (Z.to_nat (j - 1)) noll_inverse 0.

Definition round_trip_check (j : Z) : bool :=
  match noll2degrees1 j with
  | Ok (n, m) =>
      (0 <=? n) && (n <=? 14) && (Z.abs m <=? n) && ((n - m) mod 2 =? 0) &&
      match degrees2noll1 n m with
      | Ok j' => j' =? j
      | Raise _ => false
      end
  | Raise _ => false
  end.

Definition pair_round_trip_check (nm : Z * Z) : bool :=
  let (n, m) := nm in
  match degrees2noll1 n m with
  | Ok j =>
      (1 <=? j) && (j <=? 120) &&
      match noll2degrees1 j with
      | Ok (n', m') => (n' =? n) && (m' =? m)
      | Raise _ => false
      end
  | Raise _ => false
  end.

Definition inverse_check (j : Z) : bool :=
  let n := fst (noll_rank j) in
  let m := snd (noll_rank j) in
  (i64_sub n m mod 2 =? 0) &&
  match getitem noll_mapping
          (Z.quot (i64_add m (i64_mul n (i64_add n 2))) 2) with
  | Ok j' => j' =? j
  | Raise _ => false
  end.

Definition rank_check (j : Z) : bool :=
  match getitem noll_inverse (i64_sub j 1) with
  | Ok p =>
      (p =? position_of j) &&
      (radial_of_position p =? fst (noll_rank j)) &&
      (azimuthal_of_position p (radial_of_position p) =? snd (noll_rank j))
  | Raise _ => false
  end.

(** ** Further definitions used by the statements below *)

(** An int64 value. *)
Definition is_int64 (z : Z) : Prop := - 2 ^ 63 <= z < 2 ^ 63.

(** An index of the table. *)
Definition in_table (j : Z) : Prop := 1 <= j <= 120.

(** The position decoded the way [noll2degrees] does it. *)
Definition pair_of_position (p : Z) : Z * Z :=
  (radial_of_position p, azimuthal_of_position p (radial_of_position p)).

(** The element [a[i]] of the 120-entry table for an index in
    [-120, 120), with numpy's wrap-around of negative indices. *)
Definition wrapped_entry (p : Z) : Z := nth (Z.to_nat (p mod 120)) noll_mapping 0.

(** A 2-d array of shape [(2, k)] holding the radial degrees in its first
    row and the azimuthal degrees in its second. *)
Definition matrix2 (ns ms : list Z) : ndarray Z :=
  mk_ndarray [2%nat; length ns] (ns ++ ms).

(** The number of samples inside the unit disk. *)
Definition count_inside (r : list R) : nat := length (filter le_one r).



(** The two tables read against each other. *)
Definition inverse_table_check (j : Z) : bool :=
  match getitem noll_inverse (j - 1) with
  | Ok p =>
      (0 <=? p) && (p <? 120) &&
      match getitem noll_mapping p with
      | Ok j' => j' =? j
      | Raise _ => false
      end
  | Raise _ => false
  end.

Definition forward_table_check (p : Z) : bool :=
  match getitem noll_mapping p with
  | Ok j =>
      (1 <=? j) && (j <=? 120) &&
      match getitem noll_inverse (j - 1) with
      | Ok p' => p' =? p
      | Raise _ => false
      end
  | Raise _ => false
  end.

Example noll_order_head :
  firstn 6 (noll_order sine_first_exchanged 15)
  = [(0, 0); (1, 1); (1, -1); (2, 0); (2, -2); (2, 2)].
Proof. vm_compute. reflexivity. Qed.

Example noll_order_len : length (noll_order sine_first_exchanged 15) = 120%nat.
Proof. vm_compute. reflexivity. Qed.

Example noll_inverse_head :
  firstn 11 noll_inverse = [0; 2; 1; 4; 3; 5; 7; 8; 6; 9; 12].
Proof. vm_compute. reflexivity. Qed.

Example noll2degrees_array :
  noll2degrees (IntArr [4; 11; 120]) = Ok ([2; 4; 14], [0; 0; 14]).
Proof. vm_compute. reflexivity. Qed.

Example noll2degrees_zero : noll2degrees (IntArr [3; 0]) = Raise ValueError.
Proof. vm_compute. reflexivity. Qed.

Example degrees2noll_defocus : degrees2noll1 2 0 = Ok 4.
Proof. vm_compute. reflexivity. Qed.

(** A negative position wraps around, as numpy indexing does. *)
Example degrees2noll_wraps : degrees2noll1 0 (-2) = Ok 120.
Proof. vm_compute. reflexivity. Qed.

Example degrees2noll_out_of_table : degrees2noll1 15 15 = Raise IndexError.
Proof. vm_compute. reflexivity. Qed.

(** ** Known mappings *)

(** C3. The ground-truth mappings of [noll2degrees]: index 1 maps to (0,0),
    2 to (1,1), 3 to (1,-1), 4 to (2,0), 5 to (2,-2), 6 to (2,2),
    7 to (3,-1), 8 to (3,1), 9 to (3,-3), 10 to (3,3) and 11 to (4,0). *)
Theorem noll2degrees_known_mappings :
  noll2degrees1 1 = Ok (0, 0) /\
  noll2degrees1 2 = Ok (1, 1) /\
  noll2degrees1 3 = Ok (1, -1) /\
  noll2degrees1 4 = Ok (2, 0) /\
  noll2degrees1 5 = Ok (2, -2) /\
  noll2degrees1 6 = Ok (2, 2) /\
  noll2degrees1 7 = Ok (3, -1) /\
  noll2degrees1 8 = Ok (3, 1) /\
  noll2degrees1 9 = Ok (3, -3) /\
  noll2degrees1 10 = Ok (3, 3) /\
  noll2degrees1 11 = Ok (4, 0).
Proof. repeat split; vm_compute; reflexivity. Qed.

(** ** Facts about lists and traversals *)

Lemma nth_map_default {A B : Type} (g : A -> B) (l : list A) (i : nat) (d : A) (d' : B) :
  (i < length l)%nat -> nth i (map g l) d' = g (nth i l d).
Proof.
  intros Hi. rewrite (nth_indep _ d' (g d)) by (rewrite length_map; exact Hi).
  apply map_nth.
Qed.

Lemma map_combine_map {A B C : Type} (f : A * B -> C) (g : A -> B) (l : list A) :
  map f (combine l (map g l)) = map (fun a => f (a, g a)) l.
Proof.
  induction l as [| a l IH]; simpl; [reflexivity |].
  rewrite IH. reflexivity.
Qed.

Lemma mapM_ok {A B : Type} (f : A -> result B) (g : A -> B) (l : list A) :
  Forall (fun a => f a = Ok (g a)) l -> mapM f l = Ok (map g l).
Proof.
  induction 1 as [| a l Ha _ IH]; simpl; [reflexivity |].
  rewrite Ha, IH. reflexivity.
Qed.

Lemma combine_fst_snd {A B C : Type} (f : C -> A * B) (l : list C) :
  combine (map (fun c => fst (f c)) l) (map (fun c => snd (f c)) l) = map f l.
Proof.
  induction l as [| c l IH]; simpl; [reflexivity |].
  rewrite IH. destruct (f c). reflexivity.
Qed.

Lemma mapM_map {A B C : Type} (f : B -> result C) (h : A -> B) (l : list A) :
  mapM f (map h l) = mapM (fun a => f (h a)) l.
Proof.
  induction l as [| a l IH]; simpl; [reflexivity |].
  rewrite IH. reflexivity.
Qed.

(** ** Facts about the numpy model *)

Lemma wrap64_small (z : Z) : - 2 ^ 63 <= z < 2 ^ 63 -> wrap64 z = z.
Proof.
  intros Hz. unfold wrap64.
  rewrite Z.mod_small; lia.
Qed.

Lemma wrap64_parity (z : Z) : wrap64 z mod 2 = z mod 2.
Proof.
  unfold wrap64.
  pose proof (Z.div_mod (z + 2 ^ 63) (2 ^ 64) ltac:(lia)) as Hdm.
  replace ((z + 2 ^ 63) mod 2 ^ 64 - 2 ^ 63)
    with (z + (- 2 ^ 63 * ((z + 2 ^ 63) / 2 ^ 64)) * 2) by lia.
  apply Z.mod_add. lia.
Qed.

Lemma getitem_error (a : list Z) (i : Z) (e : exn) :
  getitem a i = Raise e -> e = IndexError.
Proof.
  unfold getitem.
  destruct ((0 <=? i) && (i <? Z.of_nat (length a))); [discriminate |].
  destruct ((- Z.of_nat (length a) <=? i) && (i <? 0)); [discriminate |].
  congruence.
Qed.

Lemma getitem_above (a : list Z) (i : Z) :
  Z.of_nat (length a) <= i -> getitem a i = Raise IndexError.
Proof.
  intros Hi. unfold getitem.
  replace (i <? Z.of_nat (length a)) with false by (symmetry; apply Z.ltb_ge; lia).
  replace (i <? 0) with false by (symmetry; apply Z.ltb_ge; lia).
  rewrite !andb_false_r. reflexivity.
Qed.

Lemma take_error (a idx : list Z) (e : exn) :
  take a idx = Raise e -> e = IndexError.
Proof.
  unfold take. induction idx as [| i idx IH]; simpl; [discriminate |].
  destruct (getitem a i) as [b | e'] eqn:Hi; simpl.
  - destruct (mapM (getitem a) idx) as [bs | e'']; simpl; [discriminate |].
    intros H. apply IH. exact H.
  - intros H. injection H as <-. eapply getitem_error. exact Hi.
Qed.

Lemma take_ok (a idx : list Z) (f : Z -> Z) :
  Forall (fun i => getitem a i = Ok (f i)) idx -> take a idx = Ok (map f idx).
Proof.
  unfold take. induction 1 as [| i idx Hi _ IH]; simpl; [reflexivity |].
  rewrite Hi, IH. reflexivity.
Qed.

Lemma take_raises (a idx : list Z) :
  Exists (fun i => getitem a i = Raise IndexError) idx ->
  take a idx = Raise IndexError.
Proof.
  intros Hex.
  destruct (take a idx) as [bs | e] eqn:Ht.
  - exfalso. revert bs Ht. unfold take.
    induction Hex as [i idx Hi | i idx _ IH]; intros bs; simpl.
    + rewrite Hi. discriminate.
    + destruct (getitem a i); simpl; [| discriminate].
      destruct (mapM (getitem a) idx) as [bs' |]; simpl; [| discriminate].
      intros _. eapply IH. reflexivity.
  - f_equal. eapply take_error. exact Ht.
Qed.

(** ** Enumeration over the 120 indices of the table *)

Lemma in_table_indices (j : Z) : 1 <= j <= 120 -> In j table_indices.
Proof.
  intros Hj. unfold table_indices.
  replace j with (Z.of_nat (Z.to_nat j)) by lia.
  apply in_map, in_seq. lia.
Qed.

Lemma table_indices_forall (P : Z -> bool) :
  forallb P table_indices = true -> forall j, 1 <= j <= 120 -> P j = true.
Proof.
  intros Hall j Hj.
  rewrite forallb_forall in Hall. apply Hall, in_table_indices, Hj.
Qed.

Lemma round_trip_checked : forallb round_trip_check table_indices = true.
Proof. vm_compute. reflexivity. Qed.

Lemma rank_checked : forallb rank_check table_indices = true.
Proof. vm_compute. reflexivity. Qed.

(** ** Round trip *)

Lemma round_trip_check_sound (j : Z) :
  round_trip_check j = true ->
  exists n m,
    noll2degrees1 j = Ok (n, m) /\ degrees2noll1 n m = Ok j /\
    n <= 14 /\ valid_pair n m.
Proof.
  unfold round_trip_check.
  destruct (noll2degrees1 j) as [[n m] | e]; [| discriminate].
  destruct (degrees2noll1 n m) as [j' | e] eqn:Hdn;
    [| rewrite andb_false_r; discriminate].
  intros H. repeat (apply andb_prop in H; destruct H as [H ?]).
  exists n, m. unfold valid_pair.
  repeat split; try lia.
  rewrite Hdn. f_equal. lia.
Qed.

(** C1. For every Noll index [j] in 1..120, [noll2degrees] succeeds with a
    valid degree pair [(n, m)], [degrees2noll] of that pair is [j] again,
    and [noll2degrees] of [degrees2noll (n, m)] is [(n, m)] again. *)
Theorem noll_round_trip (j : Z) :
  1 <= j <= 120 ->
  exists n m,
    noll2degrees1 j = Ok (n, m) /\
    valid_pair n m /\
    degrees2noll1 n m = Ok j /\
    (j' <- degrees2noll1 n m ;; noll2degrees1 j') = Ok (n, m).
Proof.
  intros Hj.
  destruct (round_trip_check_sound j) as (n & m & Hnd & Hdn & _ & Hv).
  { apply (table_indices_forall _ round_trip_checked), Hj. }
  exists n, m. repeat split; try apply Hv; try assumption.
  rewrite Hdn. simpl. exact Hnd.
Qed.

Lemma noll_round_trip_witness :
  exists n m,
    noll2degrees1 7 = Ok (n, m) /\
    valid_pair n m /\
    degrees2noll1 n m = Ok 7 /\
    (j' <- degrees2noll1 n m ;; noll2degrees1 j') = Ok (n, m).
Proof. apply (noll_round_trip 7). lia. Defined.

(** The degree pairs reached from the indices 1..120 are exactly the valid
    pairs of radial degree at most 14, and the round trip holds from that
    side as well. *)
Lemma degrees_round_trip (n m : Z) :
  valid_pair n m -> n <= 14 ->
  exists j, 1 <= j <= 120 /\ degrees2noll1 n m = Ok j /\ noll2degrees1 j = Ok (n, m).
Proof.
  intros (Hn & Hm & Hpar) Hn14.
  assert (Hall : forallb pair_round_trip_check
                   (filter (fun nm => ((fst nm - snd nm) mod 2 =? 0)
                                      && (Z.abs (snd nm) <=? fst nm))
                      (list_prod (map Z.of_nat (seq 0 15))
                                 (map (fun k => Z.of_nat k - 14) (seq 0 29))))
                 = true)
    by (vm_compute; reflexivity).
  rewrite forallb_forall in Hall.
  assert (Hchk : pair_round_trip_check (n, m) = true).
  { apply Hall, filter_In. split.
    - apply in_prod.
      + replace n with (Z.of_nat (Z.to_nat n)) by lia.
        apply in_map, in_seq. lia.
      + replace m with (Z.of_nat (Z.to_nat (m + 14)) - 14) by lia.
        apply (in_map (fun k => Z.of_nat k - 14)), in_seq. lia.
    - simpl. apply andb_true_intro. split.
      + apply Z.eqb_eq, Hpar.
      + apply Z.leb_le, Hm. }
  clear Hall. unfold pair_round_trip_check in Hchk.
  destruct (degrees2noll1 n m) as [j | e]; [| discriminate].
  destruct (noll2degrees1 j) as [[n' m'] | e] eqn:Hnd;
    [| rewrite andb_false_r in Hchk; discriminate].
  repeat (apply andb_prop in Hchk; destruct Hchk as [Hchk ?]).
  exists j. repeat split; try lia.
  rewrite Hnd. repeat f_equal; lia.
Qed.

(** ** The table against the generated ordering *)

(** C2, counterexample.  With the sign rule as the specification words it
    (sine first for [n mod 4] in {0, 1}) the pair of rank 2 is (1, -1), but
    the table holds 3 for (1, -1) and 2 for (1, 1): the table is not the one
    this ordering generates. *)
Lemma noll_mapping_not_as_worded :
  nth 1 (noll_order sine_first_as_worded 15) (0, 0) = (1, -1) /\
  table_entry (1, -1) = 3 /\
  table_entry (1, 1) = 2 /\
  noll_mapping <> generated_table sine_first_as_worded 15.
Proof.
  repeat split; try (vm_compute; reflexivity).
  vm_compute. discriminate.
Qed.

(** C2, amended.  The 120-entry table is exactly the table of the ordering
    generated by the rule with the two classes exchanged: the positive
    (cosine) member of a pair receives the lower index for [n mod 4] in
    {0, 1}, the negative (sine) member for [n mod 4] in {2, 3}.  The pairs
    of radial degree 0..14 occupy the positions 0..119 that [degrees2noll]
    reads, and the table entry read for the pair of rank [j] is [j]. *)
Theorem noll_mapping_is_generated_order :
  noll_mapping = generated_table sine_first_exchanged 15 /\
  map position (pairs_by_position 15) = map Z.of_nat (seq 0 120) /\
  map table_entry (noll_order sine_first_exchanged 15) = table_indices /\
  (forall n, sine_first_exchanged n = negb (sine_first_as_worded n)).
Proof.
  split; [vm_compute; reflexivity |].
  split; [vm_compute; reflexivity |].
  split; [vm_compute; reflexivity |].
  intros n. unfold sine_first_exchanged, sine_first_as_worded.
  pose proof (Z.mod_pos_bound n 4 ltac:(lia)) as Hn.
  destruct (Z.eqb_spec (n mod 4) 0), (Z.eqb_spec (n mod 4) 1),
    (Z.eqb_spec (n mod 4) 2), (Z.eqb_spec (n mod 4) 3); simpl; try reflexivity; lia.
Qed.

(** ** Contract of [noll2degrees] *)

Lemma rank_check_sound (j : Z) :
  rank_check j = true ->
  getitem noll_inverse (i64_sub j 1) = Ok (position_of j) /\
  radial_of_position (position_of j) = fst (noll_rank j) /\
  azimuthal_of_position (position_of j) (radial_of_position (position_of j))
  = snd (noll_rank j).
Proof.
  unfold rank_check.
  destruct (getitem noll_inverse (i64_sub j 1)) as [p | e]; [| discriminate].
  intros H. repeat (apply andb_prop in H; destruct H as [H ?]).
  assert (p = position_of j) as -> by lia.
  repeat split; [lia | lia].
Qed.

Lemma noll2degrees_value_error (xs : list Z) :
  noll2degrees (IntArr xs) = Raise ValueError <-> Exists (fun x => x <= 0) xs.
Proof.
  unfold noll2degrees.
  destruct (forallb (fun x => 0 <? x) xs) eqn:Hall; simpl.
  - split.
    + destruct (take noll_inverse (map (fun x => i64_sub x 1) xs)) as [p | e] eqn:Ht;
        simpl; [discriminate |].
      intros H. apply take_error in Ht. congruence.
    + intros Hex. exfalso.
      rewrite forallb_forall in Hall.
      apply Exists_exists in Hex. destruct Hex as (x & Hin & Hx).
      apply Hall in Hin. lia.
  - split; [| reflexivity].
    intros _. apply Exists_exists.
    destruct (forallb_forall (fun x => 0 <? x) xs) as [_ Hback].
    destruct (Exists_dec (fun x => x <= 0) xs
                (fun x => Z_le_dec x 0)) as [Hex | Hnex].
    + apply Exists_exists. exact Hex.
    + exfalso. rewrite Hback in Hall; [discriminate |].
      intros x Hin. apply Z.ltb_lt.
      destruct (Z_lt_dec 0 x) as [| Hle]; [assumption |].
      exfalso. apply Hnex. apply Exists_exists. exists x. split; [assumption | lia].
Qed.

Lemma index_in_table (j : Z) :
  1 <= j <= 120 ->
  i64_sub j 1 = j - 1 /\
  getitem noll_inverse (j - 1) = Ok (position_of j) /\
  radial_of_position (position_of j) = fst (noll_rank j) /\
  azimuthal_of_position (position_of j) (radial_of_position (position_of j))
  = snd (noll_rank j).
Proof.
  intros Hj.
  assert (Hsub : i64_sub j 1 = j - 1) by (apply wrap64_small; lia).
  destruct (rank_check_sound j) as (Hg & Hn & Hm).
  { apply (table_indices_forall _ rank_checked), Hj. }
  rewrite Hsub in Hg. auto.
Qed.

Lemma noll2degrees_in_table (xs : list Z) :
  Forall (fun j => 1 <= j <= 120) xs ->
  noll2degrees (IntArr xs)
  = Ok (map (fun j => fst (noll_rank j)) xs, map (fun j => snd (noll_rank j)) xs).
Proof.
  intros Hxs. unfold noll2degrees.
  replace (forallb (fun x => 0 <? x) xs) with true.
  2:{ symmetry. apply forallb_forall. intros x Hin.
      rewrite Forall_forall in Hxs. apply Hxs in Hin. apply Z.ltb_lt. lia. }
  simpl.
  rewrite (take_ok _ _ (fun i => position_of (i + 1))).
  2:{ apply Forall_map. eapply Forall_impl; [| exact Hxs].
      intros j Hj. simpl.
      destruct (index_in_table j Hj) as (-> & -> & _).
      do 2 f_equal. lia. }
  simpl. rewrite map_combine_map, !map_map.
  rewrite Forall_forall in Hxs.
  f_equal. f_equal; apply map_ext_in; intros j Hin; simpl;
    destruct (index_in_table j (Hxs j Hin)) as (-> & _ & Hn & Hm);
    replace (j - 1 + 1) with j by lia; assumption.
Qed.

Lemma noll2degrees_beyond_table (xs : list Z) :
  Forall (fun j => 0 < j < 2 ^ 63) xs ->
  Exists (fun j => 120 < j) xs ->
  noll2degrees (IntArr xs) = Raise IndexError.
Proof.
  intros Hxs Hex. unfold noll2degrees.
  replace (forallb (fun x => 0 <? x) xs) with true.
  2:{ symmetry. apply forallb_forall. intros x Hin.
      rewrite Forall_forall in Hxs. apply Hxs in Hin. apply Z.ltb_lt. lia. }
  simpl. rewrite take_raises; [reflexivity |].
  apply Exists_exists. apply Exists_exists in Hex.
  destruct Hex as (j & Hin & Hj).
  exists (i64_sub j 1). split.
  - apply (in_map (fun x => i64_sub x 1)), Hin.
  - rewrite Forall_forall in Hxs. apply Hxs in Hin.
    unfold i64_sub. rewrite wrap64_small by lia.
    apply getitem_above.
    replace (length noll_inverse) with 120%nat by (vm_compute; reflexivity).
    lia.
Qed.

(** C7, counterexample.  121 is a positive integer, and [noll2degrees]
    does not succeed on it: reading position 120 of the 120-entry inverse
    table raises [IndexError]. *)
Lemma noll2degrees_121_fails :
  Forall (fun j => 0 < j) [121] /\
  noll2degrees (IntArr [121]) = Raise IndexError.
Proof.
  split; [repeat constructor | vm_compute; reflexivity].
Qed.

(** C7, amended.  [noll2degrees] raises [ValueError] exactly when the input
    is not of integer type or holds a value [<= 0]; on every array of
    integers in 1..120 it succeeds and returns, element by element, the
    degree pair of that rank in the generated Noll ordering; on an array of
    positive int64 values one of which exceeds 120 it raises [IndexError]. *)
Theorem noll2degrees_contract (xs : list Z) :
  noll2degrees NotIntArr = Raise ValueError /\
  (noll2degrees (IntArr xs) = Raise ValueError <-> Exists (fun x => x <= 0) xs) /\
  (Forall (fun j => 1 <= j <= 120) xs ->
   noll2degrees (IntArr xs)
   = Ok (map (fun j => fst (noll_rank j)) xs,
         map (fun j => snd (noll_rank j)) xs)) /\
  (Forall (fun j => 0 < j < 2 ^ 63) xs -> Exists (fun j => 120 < j) xs ->
   noll2degrees (IntArr xs) = Raise IndexError).
Proof.
  split; [reflexivity |].
  split; [apply noll2degrees_value_error |].
  split; [apply noll2degrees_in_table | apply noll2degrees_beyond_table].
Qed.

Lemma noll2degrees_contract_witness :
  Forall (fun j => 1 <= j <= 120) [4; 1; 9] /\
  noll2degrees (IntArr [4; 1; 9]) = Ok ([2; 0; 3], [0; 0; -3]).
Proof.
  assert (H : Forall (fun j => 1 <= j <= 120) [4; 1; 9])
    by (repeat constructor; lia).
  split; [exact H |].
  exact (proj1 (proj2 (proj2 (noll2degrees_contract [4; 1; 9]))) H).
Defined.

(** ** Parity rejection of [degrees2noll] *)

Lemma degrees2noll_odd (ns ms : list Z) :
  Exists (fun x => (fst x - snd x) mod 2 = 1) (combine ns ms) ->
  degrees2noll (IntArr ns) (IntArr ms) = Raise ValueError.
Proof.
  intros Hex. unfold degrees2noll.
  replace (existsb _ (combine ns ms)) with true; [reflexivity |].
  symmetry. apply existsb_exists.
  apply Exists_exists in Hex. destruct Hex as (x & Hin & Hx).
  exists x. split; [assumption |].
  unfold i64_sub. rewrite wrap64_parity, Hx. reflexivity.
Qed.

(** C8. [degrees2noll] raises [ValueError] whenever [n] or [m] is not of
    integer type or some pair has an odd difference [n - m]; in particular
    a single pair with odd [n - m] is rejected, whatever [n] is. *)
Theorem degrees2noll_parity_rejection :
  (forall m, degrees2noll NotIntArr m = Raise ValueError) /\
  (forall n, degrees2noll n NotIntArr = Raise ValueError) /\
  (forall ns ms,
      Exists (fun x => (fst x - snd x) mod 2 = 1) (combine ns ms) ->
      degrees2noll (IntArr ns) (IntArr ms) = Raise ValueError) /\
  (forall n m, (n - m) mod 2 = 1 -> degrees2noll1 n m = Raise ValueError).
Proof.
  split; [reflexivity |].
  split; [intros [ns |]; reflexivity |].
  split; [apply degrees2noll_odd |].
  intros n m Hodd. unfold degrees2noll1.
  rewrite degrees2noll_odd; [reflexivity |].
  constructor. exact Hodd.
Qed.

Lemma degrees2noll_parity_rejection_witness :
  (3 - 2) mod 2 = 1 /\ degrees2noll1 3 2 = Raise ValueError.
Proof.
  assert (H : (3 - 2) mod 2 = 1) by reflexivity.
  split; [exact H |].
  exact (proj2 (proj2 (proj2 degrees2noll_parity_rejection)) 3 2 H).
Defined.

(** ** Round trip on arrays *)

(** The round trip on whole arrays of indices. *)
Lemma inverse_checked : forallb inverse_check table_indices = true.
Proof. vm_compute. reflexivity. Qed.

Lemma degrees2noll_of_ranks (js : list Z) :
  Forall (fun j => 1 <= j <= 120) js ->
  degrees2noll (IntArr (map (fun j => fst (noll_rank j)) js))
               (IntArr (map (fun j => snd (noll_rank j)) js))
  = Ok js.
Proof.
  intros Hjs.
  assert (Hchk : Forall (fun j => inverse_check j = true) js).
  { eapply Forall_impl; [| exact Hjs].
    intros j Hj. apply (table_indices_forall _ inverse_checked), Hj. }
  clear Hjs. unfold degrees2noll.
  rewrite (combine_fst_snd noll_rank).
  replace (existsb _ (map noll_rank js)) with false.
  2:{ symmetry. induction Hchk as [| j js Hj _ IH]; simpl; [reflexivity |].
      rewrite IH, orb_false_r. unfold inverse_check in Hj.
      apply andb_prop in Hj. destruct Hj as [Hj _].
      rewrite Hj. reflexivity. }
  unfold take. rewrite !mapM_map.
  rewrite <- (map_id js) at 2. apply mapM_ok.
  eapply Forall_impl; [| exact Hchk].
  intros j Hj. unfold inverse_check in Hj.
  apply andb_prop in Hj. destruct Hj as [_ Hj]. simpl.
  destruct (getitem noll_mapping _) as [j' | e]; [| discriminate].
  f_equal. lia.
Qed.

Lemma array_round_trip (js : list Z) :
  Forall (fun j => 1 <= j <= 120) js ->
  (nm <- noll2degrees (IntArr js) ;;
   degrees2noll (IntArr (fst nm)) (IntArr (snd nm))) = Ok js.
Proof.
  intros Hjs. rewrite noll2degrees_in_table by exact Hjs.
  simpl. apply degrees2noll_of_ranks, Hjs.
Qed.

(** ** Facts about the evaluator *)

Lemma is_zero_false (x : R) : x <> 0%R -> is_zero x = false.
Proof.
  intros Hx. unfold is_zero. destruct (Req_dec_T x 0); [contradiction | reflexivity].
Qed.

Lemma is_zero_true : is_zero 0 = true.
Proof.
  unfold is_zero. destruct (Req_dec_T 0 0); [reflexivity | contradiction].
Qed.

Lemma le_one_true (x : R) : (x <= 1)%R -> le_one x = true.
Proof.
  intros Hx. unfold le_one. destruct (Rle_dec x 1); [reflexivity | contradiction].
Qed.

Lemma le_one_false (x : R) : (1 < x)%R -> le_one x = false.
Proof.
  intros Hx. unfold le_one. destruct (Rle_dec x 1); [lra | reflexivity].
Qed.

Section EvaluatorFacts.

Context {special : scipy_special}.

Lemma radial_zernike_length (r : list R) (n m : Z) :
  length (_radial_zernike r n m) = length r.
Proof.
  unfold _radial_zernike.
  destruct ((m =? 0) && (n =? 0)); apply length_map.
Qed.

Lemma radial_zernike_outside (r : list R) (n m : Z) (i : nat) :
  (i < length r)%nat -> (1 < nth i r 0)%R ->
  nth i (_radial_zernike r n m) NaN = Fin 0.
Proof.
  intros Hi Hr. unfold _radial_zernike.
  destruct ((m =? 0) && (n =? 0));
    rewrite (nth_map_default _ _ _ 0%R) by exact Hi;
    rewrite (le_one_false _ Hr); reflexivity.
Qed.

Lemma radial_zernike_piston (r : list R) (i : nat) :
  (i < length r)%nat -> (nth i r 0 <= 1)%R ->
  nth i (_radial_zernike r 0 0) NaN = Fin 1.
Proof.
  intros Hi Hr. unfold _radial_zernike. simpl.
  rewrite (nth_map_default _ _ _ 0%R) by exact Hi.
  rewrite (le_one_true _ Hr). reflexivity.
Qed.

Lemma imul_angular_length (f : R -> R) (m : Z) (zern : list npfloat) (theta : list R) :
  length theta = length zern ->
  length (imul_angular f m zern theta) = length zern.
Proof.
  intros Hlen. unfold imul_angular.
  rewrite length_map, length_combine, Hlen. apply Nat.min_id.
Qed.

Lemma imul_angular_nth (f : R -> R) (m : Z) (zern : list npfloat) (theta : list R)
    (i : nat) :
  length theta = length zern -> (i < length zern)%nat ->
  nth i (imul_angular f m zern theta) NaN
  = fmul (nth i zern NaN) (Fin (f (IZR m * nth i theta 0)%R)).
Proof.
  intros Hlen Hi. unfold imul_angular.
  rewrite (nth_map_default _ _ _ (NaN, 0%R))
    by (rewrite length_combine, Hlen, Nat.min_id; exact Hi).
  rewrite combine_nth by (symmetry; exact Hlen).
  reflexivity.
Qed.

Lemma angular_part_length (r theta : list R) (n m : Z) :
  length theta = length r -> length (angular_part r theta n m) = length r.
Proof.
  intros Hlen. unfold angular_part.
  destruct (m <? 0); rewrite imul_angular_length;
    rewrite ?radial_zernike_length; auto.
Qed.

Lemma angular_part_outside (r theta : list R) (n m : Z) (i : nat) :
  length theta = length r -> (i < length r)%nat -> (1 < nth i r 0)%R ->
  nth i (angular_part r theta n m) NaN = Fin 0.
Proof.
  intros Hlen Hi Hr. unfold angular_part.
  destruct (m <? 0);
    rewrite imul_angular_nth by (rewrite radial_zernike_length; assumption);
    rewrite radial_zernike_outside by assumption;
    simpl; rewrite Rmult_0_l; reflexivity.
Qed.

Lemma zernike_unnormalised (r theta : list R) (n m : Z) :
  i64_sub m n mod 2 = 0 ->
  _zernike r theta n m false = angular_part r theta n m.
Proof.
  intros Hpar. unfold _zernike, angular_part. rewrite Hpar. reflexivity.
Qed.

Lemma zernike_normalised (r theta : list R) (n m : Z) :
  i64_sub m n mod 2 = 0 ->
  _zernike r theta n m true
  = map (fun z => fdiv z (linalg_norm (_zernike r theta n m false)))
        (_zernike r theta n m false).
Proof.
  intros Hpar. unfold _zernike. rewrite Hpar. reflexivity.
Qed.

Lemma zernike_odd_difference (r theta : list R) (n m : Z) (norm : bool) :
  i64_sub m n mod 2 <> 0 ->
  _zernike r theta n m norm = map (fun _ => Fin 0) r.
Proof.
  intros Hpar. unfold _zernike.
  destruct (Z.eqb_spec (i64_sub m n mod 2) 0); [contradiction | reflexivity].
Qed.

End EvaluatorFacts.

(** ** The Euclidean norm *)

Lemma dot_not_finite (u : list npfloat) (acc : npfloat) :
  (forall a, acc <> Fin a) ->
  forall s, fold_left (fun acc xi => fadd_squares acc (fmul xi xi)) u acc <> Fin s.
Proof.
  revert acc. induction u as [| x u IH]; intros acc Hacc s; simpl.
  - apply Hacc.
  - apply IH. intros a.
    destruct acc as [b | |]; [exfalso; apply (Hacc b); reflexivity | |];
      destruct (fmul x x); simpl; discriminate.
Qed.

Lemma dot_finite (xs : list R) (a : R) :
  fold_left (fun acc xi => fadd_squares acc (fmul xi xi)) (map Fin xs) (Fin a)
  = Fin (a + sum_squares xs).
Proof.
  revert a. induction xs as [| x xs IH]; intros a; simpl.
  - f_equal. lra.
  - rewrite IH. f_equal. lra.
Qed.

Lemma dot_finite_inv (u : list npfloat) (a s : R) :
  fold_left (fun acc xi => fadd_squares acc (fmul xi xi)) u (Fin a) = Fin s ->
  exists xs, u = map Fin xs.
Proof.
  revert a. induction u as [| x u IH]; intros a Hs.
  - exists []. reflexivity.
  - simpl in Hs. destruct x as [b | |]; simpl in Hs.
    + apply IH in Hs. destruct Hs as (xs & ->). exists (b :: xs). reflexivity.
    + exfalso. eapply dot_not_finite; [| exact Hs]. discriminate.
    + exfalso. eapply dot_not_finite; [| exact Hs]. discriminate.
Qed.

Lemma linalg_norm_finite (xs : list R) :
  linalg_norm (map Fin xs) = Fin (sqrt (sum_squares xs)).
Proof.
  unfold linalg_norm. rewrite dot_finite, Rplus_0_l. reflexivity.
Qed.

Lemma linalg_norm_finite_inv (u : list npfloat) (N : R) :
  linalg_norm u = Fin N ->
  exists xs, u = map Fin xs /\ N = sqrt (sum_squares xs).
Proof.
  unfold linalg_norm. intros HN.
  destruct (fold_left _ u (Fin 0)) as [s | |] eqn:Hs; simpl in HN; try discriminate.
  destruct (dot_finite_inv _ _ _ Hs) as (xs & ->).
  exists xs. split; [reflexivity |].
  rewrite dot_finite, Rplus_0_l in Hs. congruence.
Qed.

Lemma sum_squares_nonneg (xs : list R) : (0 <= sum_squares xs)%R.
Proof.
  induction xs as [| x xs IH]; simpl; [lra | nra].
Qed.

Lemma sum_squares_scaled (xs : list R) (c : R) :
  sum_squares (map (fun x => (x / c)%R) xs) = (sum_squares xs / (c * c))%R.
Proof.
  destruct (Req_dec_T c 0) as [-> | Hc].
  - induction xs as [| x xs IH]; simpl.
    + unfold Rdiv. lra.
    + rewrite IH. unfold Rdiv. rewrite Rmult_0_l, Rinv_0. lra.
  - induction xs as [| x xs IH]; simpl.
    + unfold Rdiv. lra.
    + rewrite IH. field. exact Hc.
Qed.

Lemma normalised_has_unit_norm (xs : list R) :
  sqrt (sum_squares xs) <> 0%R ->
  linalg_norm (map (fun z => fdiv z (Fin (sqrt (sum_squares xs)))) (map Fin xs))
  = Fin 1.
Proof.
  intros HN. set (N := sqrt (sum_squares xs)) in *.
  rewrite map_map.
  rewrite (map_ext _ (fun x => Fin (x / N))).
  2:{ intros x. simpl. rewrite (is_zero_false _ HN). reflexivity. }
  rewrite <- (map_map (fun x => (x / N)%R) Fin).
  rewrite linalg_norm_finite, sum_squares_scaled.
  unfold N. rewrite sqrt_sqrt by apply sum_squares_nonneg.
  f_equal. rewrite <- sqrt_1. f_equal. field.
  intros H0. apply HN. unfold N. rewrite H0. apply sqrt_0.
Qed.

Lemma parity_of_difference (n m : Z) :
  i64_sub m n mod 2 = 0 <-> (n - m) mod 2 = 0.
Proof.
  unfold i64_sub. rewrite wrap64_parity.
  pose proof (Z.mod_pos_bound (m - n) 2 ltac:(lia)).
  pose proof (Z.mod_pos_bound (n - m) 2 ltac:(lia)).
  pose proof (Z.div_mod (m - n) 2 ltac:(lia)).
  pose proof (Z.div_mod (n - m) 2 ltac:(lia)).
  lia.
Qed.

Section EvaluatorClaims.

Context {special : scipy_special}.

Lemma zernike_length (r theta : list R) (n m : Z) (norm : bool) :
  length theta = length r -> length (_zernike r theta n m norm) = length r.
Proof.
  intros Hlen.
  destruct (Z.eq_dec (i64_sub m n mod 2) 0) as [Hpar | Hpar].
  - destruct norm.
    + rewrite zernike_normalised by exact Hpar.
      rewrite length_map, zernike_unnormalised by exact Hpar.
      apply angular_part_length, Hlen.
    + rewrite zernike_unnormalised by exact Hpar.
      apply angular_part_length, Hlen.
  - rewrite zernike_odd_difference by exact Hpar. apply length_map.
Qed.

Lemma zernike_outside_unnormalised (r theta : list R) (n m : Z) (i : nat) :
  length theta = length r -> (i < length r)%nat -> (1 < nth i r 0)%R ->
  nth i (_zernike r theta n m false) NaN = Fin 0.
Proof.
  intros Hlen Hi Hr.
  destruct (Z.eq_dec (i64_sub m n mod 2) 0) as [Hpar | Hpar].
  - rewrite zernike_unnormalised by exact Hpar.
    apply angular_part_outside; assumption.
  - rewrite zernike_odd_difference by exact Hpar.
    exact (nth_map_default (fun _ => Fin 0) r i 0%R NaN Hi).
Qed.

(** On a degenerate grid, where the array before normalisation has norm
    zero, the normalised value at a point outside the disk is [nan]. *)
Lemma zernike_outside_degenerate (r theta : list R) (n m : Z) (i : nat) :
  length theta = length r -> (i < length r)%nat -> (1 < nth i r 0)%R ->
  (n - m) mod 2 = 0 ->
  linalg_norm (_zernike r theta n m false) = Fin 0 ->
  nth i (_zernike r theta n m true) NaN = NaN.
Proof.
  intros Hlen Hi Hr Hpar Hnorm.
  apply parity_of_difference in Hpar.
  rewrite zernike_normalised by exact Hpar.
  rewrite (nth_map_default _ _ _ NaN) by (rewrite zernike_length; assumption).
  rewrite zernike_outside_unnormalised by assumption.
  rewrite Hnorm. simpl. rewrite is_zero_true. reflexivity.
Qed.


(** C10.  The degree pair (0, 0) with normalisation disabled yields 1 at
    every sample point of radius [r <= 1], both from [_zernike] and from the
    entry point called with the pair [(0, 0)] and [norm=False]. *)
Theorem piston_constant (r theta : ndarray R) (i : nat) :
  (ndim r <= 2)%nat ->
  length (data theta) = length (data r) ->
  (i < length (data r))%nat -> (nth i (data r) 0 <= 1)%R ->
  nth i (_zernike (data r) (data theta) 0 0 false) NaN = Fin 1 /\
  exists out,
    zernike r theta [scalar 0; scalar 0] (Some false) = Ok out /\
    nth i (data out) NaN = Fin 1.
Proof.
  intros Hdim Hlen Hi Hr.
  assert (Hval : nth i (_zernike (data r) (data theta) 0 0 false) NaN = Fin 1).
  { rewrite zernike_unnormalised by reflexivity.
    unfold angular_part. simpl.
    rewrite imul_angular_nth by (rewrite radial_zernike_length; assumption).
    rewrite radial_zernike_piston by assumption.
    simpl. rewrite Rmult_0_l, cos_0, Rmult_1_l. reflexivity. }
  split; [exact Hval |].
  unfold zernike. simpl.
  replace (2 <? ndim r)%nat with false by (symmetry; apply Nat.ltb_ge; exact Hdim).
  eexists. split; [reflexivity |].
  simpl. rewrite app_nil_r. exact Hval.
Qed.

(** The normalisation step where the norm it divides by is usable:
    normalisation is on when the [norm] keyword is left out, and for a
    degree pair (even [n - m]) whose array before normalisation has a
    finite non-zero Euclidean norm [N], the returned array is that array
    divided element by element by [N] and its own Euclidean norm is 1.
    A sample at the origin spoils that norm, see the end of the file. *)
Theorem normalisation (r theta : list R) (n m : Z) (N : R) :
  (n - m) mod 2 = 0 ->
  linalg_norm (_zernike r theta n m false) = Fin N -> N <> 0%R ->
  norm_kwarg None = true /\
  _zernike r theta n m (norm_kwarg None)
  = map (fun z => fdiv z (Fin N)) (_zernike r theta n m false) /\
  linalg_norm (_zernike r theta n m (norm_kwarg None)) = Fin 1.
Proof.
  intros Hpar HN HN0. apply parity_of_difference in Hpar.
  split; [reflexivity |].
  simpl norm_kwarg. rewrite zernike_normalised by exact Hpar.
  rewrite HN. split; [reflexivity |].
  destruct (linalg_norm_finite_inv _ _ HN) as (xs & -> & ->).
  apply normalised_has_unit_norm, HN0.
Qed.

Lemma fmul_zero_r (x : npfloat) :
  fmul x (Fin 0) = Fin 0 \/ fmul x (Fin 0) = NaN.
Proof.
  destruct x as [a | |]; simpl; rewrite ?is_zero_true; auto.
  left. f_equal. apply Rmult_0_r.
Qed.

Lemma fmul_zero_l (x y : npfloat) :
  x = Fin 0 \/ x = NaN -> fmul x y = Fin 0 \/ fmul x y = NaN.
Proof.
  intros [-> | ->]; destruct y as [b | |]; simpl; rewrite ?is_zero_true; auto.
  left. f_equal. apply Rmult_0_l.
Qed.

Lemma radial_origin_defocus :
  nth 0 (_radial_zernike [0%R] 2 0) NaN
  = fmul (fmul (binom 2 1) (Fin 0)) (hyp2f1 (-1) (-1) (-2) Inf).
Proof.
  unfold _radial_zernike. cbn [Z.eqb andb map nth].
  rewrite (le_one_true 0) by lra.
  unfold fpow. cbn [Z.leb Z.compare].
  rewrite is_zero_true.
  replace (i64_add 2 0 / 2) with 1 by (vm_compute; reflexivity).
  replace (wrap64 (- i64_add 2 0) / 2) with (-1) by (vm_compute; reflexivity).
  replace (wrap64 (- i64_sub 2 0) / 2) with (-1) by (vm_compute; reflexivity).
  replace (wrap64 (Z.opp 2)) with (-2) by (vm_compute; reflexivity).
  replace (0 ^ Z.to_nat 2)%R with 0%R by (simpl; lra).
  reflexivity.
Qed.

(** C4, the code at the origin.  For the defocus pair (2, 0), without
    normalisation, the value at a sample of radius 0 is the product of
    [0.0 ** 2] with what scipy returns, hence 0 or [nan] whatever scipy
    returns; the radial polynomial [2 rho^2 - 1] is -1 there. *)
Theorem origin_value_defocus :
  radial_polynomial 2 0 0 = (-1)%R /\
  (nth 0 (_zernike [0%R] [0%R] 2 0 false) NaN = Fin 0 \/
   nth 0 (_zernike [0%R] [0%R] 2 0 false) NaN = NaN) /\
  nth 0 (_zernike [0%R] [0%R] 2 0 false) NaN <> Fin (radial_polynomial 2 0 0).
Proof.
  assert (Hpoly : radial_polynomial 2 0 0 = (-1)%R).
  { unfold radial_polynomial. simpl. lra. }
  assert (Hval : nth 0 (_zernike [0%R] [0%R] 2 0 false) NaN = Fin 0 \/
                 nth 0 (_zernike [0%R] [0%R] 2 0 false) NaN = NaN).
  { rewrite zernike_unnormalised by reflexivity.
    unfold angular_part. cbn [Z.ltb Z.compare].
    rewrite imul_angular_nth by (rewrite ?radial_zernike_length; simpl; lia).
    rewrite radial_origin_defocus.
    apply fmul_zero_l, fmul_zero_l, fmul_zero_r. }
  split; [exact Hpoly |]. split; [exact Hval |].
  rewrite Hpoly. destruct Hval as [-> | ->]; [| discriminate].
  intros H. injection H as H. lra.
Qed.

End EvaluatorClaims.

(** ** Batch evaluation *)




Section BatchClaims.

Context {special : scipy_special}.




End BatchClaims.

(** ** The float64 computation of the radial degree *)

Lemma ceil_half_bounds (z : Z) : z <= 2 * ceil_half z < z + 2.
Proof.
  unfold ceil_half.
  pose proof (Z.div_mod (- z) 2 ltac:(lia)).
  pose proof (Z.mod_pos_bound (- z) 2 ltac:(lia)).
  lia.
Qed.

(** [radial_of_position p] is the ceiling of the real number
    [(-3 + sqrt (9 + 8 p)) / 2] the source rounds up. *)
Lemma radial_of_position_real (p : Z) :
  0 <= p < 2 ^ 59 ->
  (IZR (radial_of_position p) - 1 < (-3 + sqrt (IZR (9 + 8 * p))) / 2
   <= IZR (radial_of_position p))%R.
Proof.
  intros Hp. unfold radial_of_position, i64_add, i64_mul.
  rewrite (wrap64_small (8 * p)) by lia.
  rewrite (wrap64_small (9 + 8 * p)) by lia.
  set (X := 9 + 8 * p). set (s := Z.sqrt_up X).
  assert (HX : 0 < X) by (unfold X; lia).
  pose proof (Z.sqrt_up_spec X HX) as Hs. fold s in Hs.
  assert (Hs1 : 1 <= s).
  { destruct (Z_lt_dec s 1) as [Hlt |]; [| lia].
    assert (s * s <= 0 \/ s < 0) as [H0 | H0] by nia; [nia |].
    pose proof (Z.sqrt_up_nonneg X). fold s in H. lia. }
  pose proof (ceil_half_bounds (-3 + s)) as Hn.
  set (n := ceil_half (-3 + s)) in *.
  assert (Hup : (sqrt (IZR X) <= IZR s)%R).
  { rewrite <- (sqrt_square (IZR s)) by (apply IZR_le; lia).
    apply sqrt_le_1_alt. rewrite <- mult_IZR. apply IZR_le.
    replace (s * s) with (s ^ 2) by lia. lia. }
  assert (Hlo : (IZR (s - 1) < sqrt (IZR X))%R).
  { rewrite <- (sqrt_square (IZR (s - 1))) by (apply IZR_le; lia).
    apply sqrt_lt_1_alt. split.
    - rewrite <- mult_IZR. apply IZR_le. nia.
    - rewrite <- mult_IZR. apply IZR_lt.
      replace ((s - 1) * (s - 1)) with (Z.pred s ^ 2) by (unfold Z.pred; lia). lia. }
  assert (Hn1 : (IZR (-3 + s) <= 2 * IZR n)%R)
    by (rewrite <- mult_IZR; apply IZR_le; lia).
  assert (Hn2 : (2 * IZR n <= IZR (s - 1) - 1)%R).
  { rewrite <- mult_IZR, <- minus_IZR. apply IZR_le. lia. }
  rewrite plus_IZR in Hn1. rewrite minus_IZR in Hlo, Hn2.
  split; lra.
Qed.

(** ** Closed instances on the piston *)

Lemma piston_unnormalised {special : scipy_special} (r theta : list R) :
  length theta = length r ->
  _zernike r theta 0 0 false = map (fun x => if le_one x then Fin 1 else Fin 0) r.
Proof.
  rewrite zernike_unnormalised by reflexivity.
  unfold angular_part, _radial_zernike, imul_angular. simpl.
  revert theta. induction r as [| x r IH]; intros [| t theta] Hlen;
    simpl in *; try discriminate; [reflexivity |].
  f_equal; [| apply IH; lia].
  rewrite Rmult_0_l, cos_0. destruct (le_one x); simpl; f_equal; lra.
Qed.

Lemma piston_norm_inside_outside :
  linalg_norm (@_zernike nan_special [1%R; 2%R] [0%R; 0%R] 0 0 false) = Fin 1.
Proof.
  rewrite piston_unnormalised by reflexivity. simpl.
  rewrite (le_one_true 1) by lra. rewrite (le_one_false 2) by lra.
  change [Fin 1; Fin 0] with (map Fin [1%R; 0%R]).
  rewrite linalg_norm_finite. simpl. f_equal.
  replace (1 * 1 + (0 * 0 + 0))%R with 1%R by lra. apply sqrt_1.
Qed.



Lemma piston_constant_witness :
  nth 0 (@_zernike nan_special [1%R; 2%R] [0%R; 0%R] 0 0 false) NaN = Fin 1 /\
  exists out,
    @zernike nan_special (mk_ndarray [2%nat] [1%R; 2%R]) (mk_ndarray [2%nat] [0%R; 0%R])
      [scalar 0; scalar 0] (Some false) = Ok out /\
    nth 0 (data out) NaN = Fin 1.
Proof.
  apply (@piston_constant nan_special
           (mk_ndarray [2%nat] [1%R; 2%R]) (mk_ndarray [2%nat] [0%R; 0%R]) 0).
  - unfold ndim. simpl. lia.
  - reflexivity.
  - simpl. lia.
  - simpl. lra.
Defined.

Lemma normalisation_witness :
  norm_kwarg None = true /\
  @_zernike nan_special [1%R; 2%R] [0%R; 0%R] 0 0 (norm_kwarg None)
  = map (fun z => fdiv z (Fin 1))
        (@_zernike nan_special [1%R; 2%R] [0%R; 0%R] 0 0 false) /\
  linalg_norm (@_zernike nan_special [1%R; 2%R] [0%R; 0%R] 0 0 (norm_kwarg None))
  = Fin 1.
Proof.
  apply normalisation.
  - reflexivity.
  - apply piston_norm_inside_outside.
  - lra.
Defined.


(** ** The two tables are inverse to each other *)

Lemma inverse_table_checked : forallb inverse_table_check table_indices = true.
Proof. vm_compute. reflexivity. Qed.

Lemma forward_table_checked :
  forallb forward_table_check (map Z.of_nat (seq 0 120)) = true.
Proof. vm_compute. reflexivity. Qed.

(** [noll_inverse], obtained by [argsort], really is the inverse of
    [noll_mapping]: the position stored for the index [j] holds [j], and
    the index stored at the position [p] leads back to [p]. *)
Theorem tables_are_inverse (j p : Z) :
  in_table j -> 0 <= p < 120 ->
  (exists q, getitem noll_inverse (j - 1) = Ok q /\ 0 <= q < 120 /\
             getitem noll_mapping q = Ok j) /\
  (exists i, getitem noll_mapping p = Ok i /\ in_table i /\
             getitem noll_inverse (i - 1) = Ok p).
Proof.
  intros Hj Hp. split.
  - pose proof (table_indices_forall _ inverse_table_checked j Hj) as H.
    unfold inverse_table_check in H.
    destruct (getitem noll_inverse (j - 1)) as [q | e]; [| discriminate].
    apply andb_prop in H. destruct H as [Hq H].
    apply andb_prop in Hq. destruct Hq as [Hq0 Hq1].
    destruct (getitem noll_mapping q) as [j' | e] eqn:Hm; [| discriminate].
    exists q. repeat split; try lia. rewrite Hm. f_equal. lia.
  - assert (H : forward_table_check p = true).
    { pose proof forward_table_checked as Hall. rewrite forallb_forall in Hall.
      apply Hall. replace p with (Z.of_nat (Z.to_nat p)) by lia.
      apply in_map, in_seq. lia. }
    unfold forward_table_check in H.
    destruct (getitem noll_mapping p) as [i | e]; [| discriminate].
    apply andb_prop in H. destruct H as [Hi H].
    apply andb_prop in Hi. destruct Hi as [Hi0 Hi1].
    destruct (getitem noll_inverse (i - 1)) as [p' | e] eqn:Hinv; [| discriminate].
    exists i. unfold in_table. repeat split; try lia. rewrite Hinv. f_equal. lia.
Qed.

Lemma tables_are_inverse_witness :
  (exists q, getitem noll_inverse (4 - 1) = Ok q /\ 0 <= q < 120 /\
             getitem noll_mapping q = Ok 4) /\
  (exists i, getitem noll_mapping 12 = Ok i /\ in_table i /\
             getitem noll_inverse (i - 1) = Ok 12).
Proof. apply (tables_are_inverse 4 12); unfold in_table; lia. Defined.

(** ** The arithmetic of positions is exact for every degree *)

Lemma consecutive_product_even (n : Z) : exists k, n * (n + 1) = 2 * k.
Proof.
  destruct (Z.Even_or_Odd n) as [[h ->] | [h ->]].
  - exists (h * (2 * h + 1)). ring.
  - exists ((2 * h + 1) * (h + 1)). ring.
Qed.

Lemma radial_of_position_bounds (p : Z) :
  0 <= p < 2 ^ 59 ->
  0 <= radial_of_position p /\
  radial_of_position p * (radial_of_position p + 1) <= 2 * p
  <= radial_of_position p * (radial_of_position p + 3).
Proof.
  intros Hp. unfold radial_of_position, i64_add, i64_mul.
  rewrite (wrap64_small (8 * p)) by lia.
  rewrite (wrap64_small (9 + 8 * p)) by lia.
  set (X := 9 + 8 * p). set (s := Z.sqrt_up X).
  assert (HX : 0 < X) by (unfold X; lia).
  pose proof (Z.sqrt_up_spec X HX) as Hs. fold s in Hs.
  unfold Z.pred in Hs.
  assert (Hs3 : 3 <= s).
  { destruct (Z_lt_dec s 3) as [Hlt |]; [| lia].
    pose proof (Z.sqrt_up_nonneg X) as H0. fold s in H0.
    assert (s * s <= 4) by nia. unfold X in Hs. lia. }
  pose proof (ceil_half_bounds (-3 + s)) as Hn.
  set (n := ceil_half (-3 + s)) in *.
  destruct (consecutive_product_even n) as (k & Hk).
  assert (Hup : X <= (2 * n + 3) * (2 * n + 3)) by nia.
  assert (Hlo : (2 * n + 1) * (2 * n + 1) < X) by nia.
  unfold X in Hup, Hlo. split; [lia |].
  assert (Hk' : 2 * k <= 2 * p + 1) by (rewrite <- Hk; lia).
  split; [rewrite Hk; lia | lia].
Qed.

(** The decoding of [noll2degrees] is right far beyond the 120 positions of
    the table: for every position [0 <= p < 2 ^ 48], the range in which the
    float64 computation of the source is exact, the decoded pair is a valid
    degree pair, and it is the pair [degrees2noll] places at [p]. *)
Theorem position_decoding_exact (p : Z) :
  0 <= p < 2 ^ 48 ->
  valid_pair (fst (pair_of_position p)) (snd (pair_of_position p)) /\
  position (pair_of_position p) = p.
Proof.
  intros Hp48.
  assert (Hp : 0 <= p < 2 ^ 59) by lia.
  unfold pair_of_position, position, azimuthal_of_position, valid_pair.
  cbn [fst snd].
  destruct (radial_of_position_bounds p Hp) as (Hn0 & Hlo & Hhi).
  set (n := radial_of_position p) in *.
  destruct (consecutive_product_even n) as (k & Hk).
  repeat split.
  - exact Hn0.
  - apply Z.abs_le. lia.
  - replace (n - (2 * p - n * (n + 2))) with ((k + n - p) * 2) by lia.
    apply Z.mod_mul. lia.
  - replace (2 * p - n * (n + 2) + n * (n + 2)) with (p * 2) by lia.
    apply Z.div_mul. lia.
Qed.

Lemma position_decoding_exact_witness :
  valid_pair (fst (pair_of_position 1000)) (snd (pair_of_position 1000)) /\
  position (pair_of_position 1000) = 1000.
Proof. apply (position_decoding_exact 1000). lia. Defined.

(** Conversely every valid degree pair of radial degree [n < 2 ^ 24] (its
    position is then below [2 ^ 48], where the float64 computation of the
    source is exact) is recovered from its position by the decoding of
    [noll2degrees]. *)
Theorem pair_decoding_exact (n m : Z) :
  valid_pair n m -> n < 2 ^ 24 ->
  0 <= position (n, m) < 2 ^ 48 /\
  pair_of_position (position (n, m)) = (n, m).
Proof.
  intros (Hn & Hm & Hpar) Hbig.
  apply Z.abs_le in Hm.
  unfold position. cbn [fst snd].
  destruct (consecutive_product_even n) as (k & Hk).
  assert (Hsum : m + n * (n + 2) = 2 * (k + (n + m) / 2)).
  { pose proof (Z.div_mod (n - m) 2 ltac:(lia)) as Hdm. rewrite Hpar in Hdm.
    pose proof (Z.div_mod (n + m) 2 ltac:(lia)) as Hdm'.
    assert ((n + m) mod 2 = 0).
    { replace (n + m) with (n - m + m * 2) by lia.
      rewrite Z.mod_add by lia. exact Hpar. }
    lia. }
  set (p := (m + n * (n + 2)) / 2).
  assert (Hp2 : 2 * p = m + n * (n + 2)).
  { unfold p. rewrite Hsum.
    replace (2 * (k + (n + m) / 2)) with ((k + (n + m) / 2) * 2) by lia.
    rewrite Z.div_mul by lia. lia. }
  assert (Hp48 : 0 <= p < 2 ^ 48).
  { split; [nia |].
    assert (n * (n + 3) < 2 ^ 24 * (2 ^ 24 + 3)) by nia.
    assert (2 ^ 24 * (2 ^ 24 + 3) < 2 ^ 49) by (vm_compute; reflexivity).
    lia. }
  assert (Hp : 0 <= p < 2 ^ 59) by lia.
  split; [exact Hp48 |].
  destruct (radial_of_position_bounds p Hp) as (Hn0 & Hlo & Hhi).
  unfold pair_of_position, azimuthal_of_position.
  set (n' := radial_of_position p) in *.
  assert (n' = n) as -> by nia.
  f_equal. lia.
Qed.

Lemma pair_decoding_exact_witness :
  0 <= position (40, -12) < 2 ^ 48 /\
  pair_of_position (position (40, -12)) = (40, -12).
Proof.
  apply (pair_decoding_exact 40 (-12)).
  - unfold valid_pair. repeat split; lia.
  - lia.
Defined.

(** ** Errors and edge cases of [degrees2noll] *)

Lemma getitem_cases (a : list Z) (i : Z) :
  (0 <= i < Z.of_nat (length a) -> getitem a i = Ok (nth (Z.to_nat i) a 0)) /\
  (- Z.of_nat (length a) <= i < 0 ->
   getitem a i = Ok (nth (Z.to_nat (i + Z.of_nat (length a))) a 0)) /\
  (~ (- Z.of_nat (length a) <= i < Z.of_nat (length a)) ->
   getitem a i = Raise IndexError).
Proof.
  unfold getitem.
  destruct (Z.leb_spec 0 i), (Z.ltb_spec i (Z.of_nat (length a))),
    (Z.leb_spec (- Z.of_nat (length a)) i), (Z.ltb_spec i 0); simpl;
    repeat split; intros; try reflexivity; lia.
Qed.

Lemma odd_difference_cases (n m : Z) :
  (i64_sub n m mod 2 =? 0) = false <-> (n - m) mod 2 = 1.
Proof.
  unfold i64_sub. rewrite wrap64_parity.
  pose proof (Z.mod_pos_bound (n - m) 2 ltac:(lia)).
  destruct (Z.eqb_spec ((n - m) mod 2) 0); split; intros; try reflexivity;
    try discriminate; lia.
Qed.

(** For [n] and [m] of integer type and of the same shape, [degrees2noll]
    raises [ValueError] exactly when some pair has an odd difference, and
    any other failure is the [IndexError] of the table lookup; an argument
    that is not of integer type gives [ValueError]. *)
Theorem degrees2noll_value_error_iff (ns ms : list Z) :
  length ns = length ms ->
  (degrees2noll (IntArr ns) (IntArr ms) = Raise ValueError <->
   Exists (fun x => (fst x - snd x) mod 2 = 1) (combine ns ms)) /\
  (forall e, degrees2noll (IntArr ns) (IntArr ms) = Raise e ->
             e = ValueError \/ e = IndexError) /\
  degrees2noll NotIntArr (IntArr ms) = Raise ValueError /\
  degrees2noll (IntArr ns) NotIntArr = Raise ValueError.
Proof.
  intros _.
  assert (Hcases :
            (existsb (fun x => negb (i64_sub (fst x) (snd x) mod 2 =? 0))
               (combine ns ms) = true /\
             Exists (fun x => (fst x - snd x) mod 2 = 1) (combine ns ms)) \/
            (existsb (fun x => negb (i64_sub (fst x) (snd x) mod 2 =? 0))
               (combine ns ms) = false /\
             ~ Exists (fun x => (fst x - snd x) mod 2 = 1) (combine ns ms))).
  { destruct (existsb _ (combine ns ms)) eqn:Hex.
    - left. split; [reflexivity |].
      apply existsb_exists in Hex. destruct Hex as (x & Hin & Hx).
      apply Exists_exists. exists x. split; [exact Hin |].
      apply odd_difference_cases. apply negb_true_iff in Hx. exact Hx.
    - right. split; [reflexivity |].
      intros Hodd. apply Exists_exists in Hodd. destruct Hodd as (x & Hin & Hx).
      assert (Htrue : existsb (fun x => negb (i64_sub (fst x) (snd x) mod 2 =? 0))
                        (combine ns ms) = true).
      { apply existsb_exists. exists x. split; [exact Hin |].
        apply negb_true_iff, odd_difference_cases, Hx. }
      congruence. }
  split; [| split; [| split; reflexivity]].
  - split.
    + intros H. destruct Hcases as [(_ & Hodd) | (Hex & _)]; [exact Hodd |].
      unfold degrees2noll in H. rewrite Hex in H.
      apply take_error in H. discriminate.
    + apply degrees2noll_odd.
  - intros e He. unfold degrees2noll in He.
    destruct Hcases as [(Hex & _) | (Hex & _)]; rewrite Hex in He.
    + left. congruence.
    + right. eapply take_error. exact He.
Qed.

Lemma degrees2noll_value_error_iff_witness :
  (degrees2noll (IntArr [2; 3]) (IntArr [0; 2]) = Raise ValueError <->
   Exists (fun x => (fst x - snd x) mod 2 = 1) (combine [2; 3] [0; 2])) /\
  (forall e, degrees2noll (IntArr [2; 3]) (IntArr [0; 2]) = Raise e ->
             e = ValueError \/ e = IndexError) /\
  degrees2noll NotIntArr (IntArr [0; 2]) = Raise ValueError /\
  degrees2noll (IntArr [2; 3]) NotIntArr = Raise ValueError.
Proof. apply (degrees2noll_value_error_iff [2; 3] [0; 2]). reflexivity. Defined.

Lemma even_quot (x : Z) : x mod 2 = 0 -> Z.quot x 2 = x / 2.
Proof.
  intros Hx. pose proof (Z.div_mod x 2 ltac:(lia)) as Hdm.
  rewrite Hx, Z.add_0_r in Hdm.
  rewrite Hdm at 1. rewrite Z.mul_comm. apply Z.quot_mul. lia.
Qed.

(** [degrees2noll] checks the parity of a pair and nothing else: it does
    not require [0 <= n] or [|m| <= n].  A pair of even difference is looked
    up at its position [(m + n (n + 2)) / 2]; a negative position counts
    from the end of the table; only a position outside [-120, 120) fails,
    with numpy's [IndexError]. *)
Theorem degrees2noll_by_position (n m : Z) :
  - 2 ^ 30 < n < 2 ^ 30 -> - 2 ^ 62 < m < 2 ^ 62 -> (n - m) mod 2 = 0 ->
  (- 120 <= position (n, m) < 120 ->
   degrees2noll1 n m = Ok (wrapped_entry (position (n, m)))) /\
  (~ (- 120 <= position (n, m) < 120) ->
   degrees2noll1 n m = Raise IndexError).
Proof.
  intros Hn Hm Hpar.
  assert (Hbig : 2 ^ 30 * 2 ^ 30 = 2 ^ 60) by reflexivity.
  assert (H62 : 2 ^ 62 = 4 * 2 ^ 60) by reflexivity.
  assert (H63 : 2 ^ 63 = 8 * 2 ^ 60) by reflexivity.
  assert (Hprod : - 2 ^ 61 < n * (n + 2) < 2 ^ 61) by nia.
  assert (Hq : Z.quot (i64_add m (i64_mul n (i64_add n 2))) 2 = position (n, m)).
  { unfold i64_add, i64_mul, position. cbn [fst snd].
    rewrite (wrap64_small (n + 2)) by lia.
    rewrite (wrap64_small (n * (n + 2))) by lia.
    rewrite (wrap64_small (m + n * (n + 2))) by lia.
    apply even_quot.
    destruct (consecutive_product_even n) as (k & Hk).
    replace (m + n * (n + 2)) with (n - m + (k + m) * 2) by lia.
    rewrite Z.mod_add by lia. exact Hpar. }
  assert (Heven : existsb (fun x => negb (i64_sub (fst x) (snd x) mod 2 =? 0))
                    (combine [n] [m]) = false).
  { simpl. unfold i64_sub. rewrite wrap64_parity, Hpar. reflexivity. }
  assert (Hlen : Z.of_nat (length noll_mapping) = 120) by reflexivity.
  unfold degrees2noll1, degrees2noll. rewrite Heven.
  cbn [combine map fst snd take mapM]. rewrite Hq.
  destruct (getitem_cases noll_mapping (position (n, m))) as (Hin & Hneg & Hout).
  rewrite Hlen in Hin, Hneg, Hout.
  split.
  - intros Hp. unfold wrapped_entry.
    destruct (Z_lt_dec (position (n, m)) 0) as [Hlt | Hge].
    + rewrite Hneg by lia. cbn [bind]. do 3 f_equal.
      replace (position (n, m)) with (position (n, m) + 120 + (-1) * 120) at 2 by lia.
      rewrite Z.mod_add by lia. rewrite Z.mod_small by lia. reflexivity.
    + rewrite Hin by lia. cbn [bind]. do 3 f_equal.
      rewrite Z.mod_small by lia. reflexivity.
  - intros Hp. rewrite Hout by exact Hp. reflexivity.
Qed.

Lemma degrees2noll_by_position_witness :
  degrees2noll1 0 2 = Ok (wrapped_entry (position (0, 2))) /\
  degrees2noll1 0 (-2) = Ok (wrapped_entry (position (0, -2))) /\
  degrees2noll1 16 0 = Raise IndexError.
Proof.
  split; [| split].
  - apply (proj1 (degrees2noll_by_position 0 2 ltac:(lia) ltac:(lia) eq_refl)).
    vm_compute. split; [discriminate | reflexivity].
  - apply (proj1 (degrees2noll_by_position 0 (-2) ltac:(lia) ltac:(lia) eq_refl)).
    vm_compute. split; [discriminate | reflexivity].
  - apply (proj2 (degrees2noll_by_position 16 0 ltac:(lia) ltac:(lia) eq_refl)).
    vm_compute. intros [_ H]. discriminate H.
Defined.

(** ** When [noll2degrees] succeeds, and what it then returns *)

Lemma rank_is_valid (j : Z) :
  in_table j ->
  valid_pair (fst (noll_rank j)) (snd (noll_rank j)) /\ fst (noll_rank j) <= 14.
Proof.
  intros Hj.
  destruct (round_trip_check_sound j) as (n & m & Hnd & _ & Hn14 & Hv).
  { apply (table_indices_forall _ round_trip_checked), Hj. }
  unfold noll2degrees1 in Hnd.
  rewrite noll2degrees_in_table in Hnd by (constructor; [exact Hj | constructor]).
  simpl in Hnd. injection Hnd as -> ->. split; assumption.
Qed.

Lemma outside_table_cases (xs : list Z) :
  Forall in_table xs \/
  Exists (fun x => x <= 0) xs \/
  (Forall (fun x => 0 < x) xs /\ Exists (fun x => 120 < x) xs).
Proof.
  induction xs as [| x xs IH]; [left; constructor |].
  destruct (Z_le_dec x 0) as [Hx0 | Hx0]; [right; left; constructor; exact Hx0 |].
  destruct IH as [Hall | [Hneg | (Hpos & Hbig)]].
  - destruct (Z_lt_dec 120 x) as [Hx | Hx].
    + right. right. split.
      * constructor; [lia |]. eapply Forall_impl; [| exact Hall].
        unfold in_table. intros; lia.
      * constructor. exact Hx.
    + left. constructor; [unfold in_table; lia | exact Hall].
  - right. left. apply Exists_cons_tl, Hneg.
  - right. right. split; [constructor; [lia | exact Hpos] |].
    apply Exists_cons_tl, Hbig.
Qed.

(** On int64 input [noll2degrees] succeeds exactly when every index lies in
    1..120.  When it succeeds, the two arrays it returns have the length of
    the input, and every pair it returns is a valid degree pair of radial
    degree at most 14. *)
Theorem noll2degrees_succeeds_iff (xs : list Z) :
  Forall is_int64 xs ->
  ((exists v, noll2degrees (IntArr xs) = Ok v) <-> Forall in_table xs) /\
  (forall ns ms,
      noll2degrees (IntArr xs) = Ok (ns, ms) ->
      length ns = length xs /\ length ms = length xs /\
      Forall (fun nm => valid_pair (fst nm) (snd nm) /\ fst nm <= 14)
             (combine ns ms)).
Proof.
  intros H64.
  assert (Hiff : (exists v, noll2degrees (IntArr xs) = Ok v) -> Forall in_table xs).
  { intros (v & Hv).
    destruct (outside_table_cases xs) as [Hall | [Hneg | (Hpos & Hbig)]].
    - exact Hall.
    - apply noll2degrees_value_error in Hneg. congruence.
    - rewrite noll2degrees_beyond_table in Hv; [discriminate | | exact Hbig].
      rewrite Forall_forall in *. intros x Hin.
      specialize (Hpos x Hin). specialize (H64 x Hin). unfold is_int64 in H64. lia. }
  split.
  - split; [exact Hiff |].
    intros Hall. eexists. apply noll2degrees_in_table. exact Hall.
  - intros ns ms Hok.
    assert (Hall : Forall in_table xs) by (apply Hiff; eexists; exact Hok).
    rewrite noll2degrees_in_table in Hok by exact Hall.
    injection Hok as <- <-.
    rewrite !length_map. repeat split.
    rewrite (combine_fst_snd noll_rank). apply Forall_map.
    eapply Forall_impl; [| exact Hall].
    intros j Hj. apply rank_is_valid, Hj.
Qed.

Lemma noll2degrees_succeeds_iff_witness :
  ((exists v, noll2degrees (IntArr [7; 120]) = Ok v) <-> Forall in_table [7; 120]) /\
  (forall ns ms,
      noll2degrees (IntArr [7; 120]) = Ok (ns, ms) ->
      length ns = length [7; 120] /\ length ms = length [7; 120] /\
      Forall (fun nm => valid_pair (fst nm) (snd nm) /\ fst nm <= 14)
             (combine ns ms)).
Proof.
  apply noll2degrees_succeeds_iff.
  repeat constructor; unfold is_int64; lia.
Defined.

(** ** The selector forms of the entry point *)

Lemma noll2degrees_lengths (xs ns ms : list Z) :
  noll2degrees (IntArr xs) = Ok (ns, ms) ->
  length ns = length xs /\ length ms = length xs.
Proof.
  unfold noll2degrees.
  destruct (negb (forallb (fun x => 0 <? x) xs)); [discriminate |].
  destruct (take noll_inverse (map (fun x => i64_sub x 1) xs)) as [p | e] eqn:Hp;
    [| discriminate].
  simpl. intros H. injection H as <- <-.
  assert (Hlen : length p = length xs).
  { clear - Hp. unfold take in Hp. rewrite mapM_map in Hp.
    revert p Hp. induction xs as [| x xs IH]; intros p Hp; simpl in Hp.
    - injection Hp as <-. reflexivity.
    - destruct (getitem noll_inverse (i64_sub x 1)); [| discriminate].
      destruct (mapM _ xs) as [ps |]; [| discriminate].
      simpl in Hp. injection Hp as <-. simpl. f_equal. apply IH. reflexivity. }
  rewrite !length_map, length_combine, length_map, Nat.min_id. auto.
Qed.

Section SelectorForms.

Context {special : scipy_special}.

(** The three ways of naming the same polynomials give the same result,
    value or exception: a sequence of Noll indices, the two sequences of
    degrees [noll2degrees] returns for it, and those two sequences as the
    rows of one 2-d array. *)
Theorem selector_forms_agree (r theta : ndarray R) (kwargs : option bool)
    (js ns ms : list Z) :
  noll2degrees (IntArr js) = Ok (ns, ms) ->
  zernike r theta [vector ns; vector ms] kwargs
  = zernike r theta [vector js] kwargs /\
  zernike r theta [matrix2 ns ms] kwargs
  = zernike r theta [vector js] kwargs.
Proof.
  intros Hnd.
  destruct (noll2degrees_lengths _ _ _ Hnd) as (Hns & Hms).
  assert (Hjs : resolve_args [vector js] = Ok (ns, ms)) by exact Hnd.
  assert (Htwo : resolve_args [vector ns; vector ms] = Ok (ns, ms)).
  { unfold resolve_args, vector. cbn [shape data ndim length].
    destruct (list_eq_dec Nat.eq_dec [length ns] [length ms]) as [_ | Hne];
      [reflexivity |].
    exfalso. apply Hne. rewrite Hns, Hms. reflexivity. }
  assert (Hmat : resolve_args [matrix2 ns ms] = Ok (ns, ms)).
  { unfold resolve_args, matrix2. cbn [shape data ndim length hd nth].
    cbn [Nat.ltb Nat.leb Nat.eqb].
    rewrite firstn_app, Nat.sub_diag, firstn_all, app_nil_r.
    rewrite skipn_app, Nat.sub_diag, skipn_all. reflexivity. }
  unfold zernike. rewrite Hjs, Htwo, Hmat. split; reflexivity.
Qed.

End SelectorForms.

Lemma selector_forms_agree_witness :
  @zernike nan_special (mk_ndarray [2%nat] [1%R; 2%R]) (mk_ndarray [2%nat] [0%R; 0%R])
    [vector [2; 3]; vector [0; -1]] None
  = @zernike nan_special (mk_ndarray [2%nat] [1%R; 2%R]) (mk_ndarray [2%nat] [0%R; 0%R])
      [vector [4; 7]] None /\
  @zernike nan_special (mk_ndarray [2%nat] [1%R; 2%R]) (mk_ndarray [2%nat] [0%R; 0%R])
    [matrix2 [2; 3] [0; -1]] None
  = @zernike nan_special (mk_ndarray [2%nat] [1%R; 2%R]) (mk_ndarray [2%nat] [0%R; 0%R])
      [vector [4; 7]] None.
Proof.
  apply (@selector_forms_agree nan_special).
  vm_compute. reflexivity.
Defined.

(** ** Shape and size of the result, and the failures of the entry point *)

Lemma length_concat_uniform {A : Type} (rows : list (list A)) (c : nat) :
  Forall (fun row => length row = c) rows ->
  length (concat rows) = (length rows * c)%nat.
Proof.
  induction 1 as [| row rows Hrow _ IH]; simpl; [reflexivity |].
  rewrite length_app, Hrow, IH. reflexivity.
Qed.

Lemma stack_data {A : Type} (s : list nat) (rows : list (list A)) :
  data (stack s rows) = concat rows.
Proof. destruct rows; reflexivity. Qed.

Lemma stack_shape {A : Type} (s : list nat) (rows : list (list A)) :
  shape (stack s rows) = match rows with
                         | [] => [0%nat]
                         | _ => length rows :: s
                         end.
Proof. destruct rows; reflexivity. Qed.

Section EntryPoint.

Context {special : scipy_special}.

(** Whenever the entry point succeeds, the selector has been resolved to
    some [k] degree pairs and the grid has at most two dimensions; the
    result holds [k] times as many values as the grid has samples, and its
    shape is [(k,) + r.shape] with the axes of length one removed (shape
    [(0,)] when [k = 0]). *)
Theorem zernike_output_size (r theta : ndarray R) (args : list (ndarray Z))
    (kwargs : option bool) (out : ndarray npfloat) :
  length (data theta) = length (data r) ->
  zernike r theta args kwargs = Ok out ->
  exists ns ms,
    resolve_args args = Ok (ns, ms) /\ (ndim r <= 2)%nat /\
    length (data out) = (length (combine ns ms) * length (data r))%nat /\
    shape out = match combine ns ms with
                | [] => [0%nat]
                | _ => squeezed (length (combine ns ms) :: shape r)
                end.
Proof.
  intros Hlen Hok. unfold zernike in Hok.
  destruct (resolve_args args) as [[ns ms] | e]; [| discriminate].
  cbn [bind fst snd] in Hok.
  destruct (Nat.ltb_spec 2 (ndim r)) as [Hbig | Hdim]; [discriminate |].
  injection Hok as <-.
  exists ns, ms. split; [reflexivity |]. split; [exact Hdim |].
  split.
  - unfold squeeze. cbn [data]. rewrite stack_data.
    rewrite (length_concat_uniform _ (length (data r))).
    + rewrite length_map. reflexivity.
    + apply Forall_map, Forall_forall. intros x _.
      apply zernike_length, Hlen.
  - unfold squeeze. cbn [shape]. rewrite stack_shape, length_map.
    destruct (combine ns ms) as [| d ds]; reflexivity.
Qed.


(** Malformed selectors, whatever the grid: no argument or more than two
    give [ValueError]; a single array of more than two dimensions gives
    [ValueError]; a single 2-d array is never read as Noll indices, and
    unless its first axis has length 2 it gives [RuntimeError]; two arrays
    of different shapes, or of more than one dimension, give
    [ValueError]. *)
Theorem zernike_malformed_selectors (r theta : ndarray R) (kwargs : option bool) :
  zernike r theta [] kwargs = Raise ValueError /\
  (forall a b c rest, zernike r theta (a :: b :: c :: rest) kwargs = Raise ValueError) /\
  (forall a, (2 < ndim a)%nat -> zernike r theta [a] kwargs = Raise ValueError) /\
  (forall a, ndim a = 2%nat -> hd 0%nat (shape a) <> 2%nat ->
             zernike r theta [a] kwargs = Raise RuntimeError) /\
  (forall n m, shape n <> shape m \/ (1 < ndim n)%nat ->
               zernike r theta [n; m] kwargs = Raise ValueError).
Proof.
  split; [reflexivity |]. split; [reflexivity |]. split; [| split].
  - intros a Ha. unfold zernike, resolve_args.
    replace (ndim a <? 2)%nat with false by (symmetry; apply Nat.ltb_ge; lia).
    replace (ndim a =? 2)%nat with false by (symmetry; apply Nat.eqb_neq; lia).
    reflexivity.
  - intros a Ha Hhd. unfold zernike, resolve_args. rewrite Ha.
    cbn [Nat.ltb Nat.leb Nat.eqb].
    replace (hd 0%nat (shape a) =? 2)%nat with false
      by (symmetry; apply Nat.eqb_neq; exact Hhd).
    reflexivity.
  - intros n m Hbad. unfold zernike, resolve_args.
    destruct (list_eq_dec Nat.eq_dec (shape n) (shape m)) as [Heq | Hne];
      [| reflexivity].
    destruct Hbad as [Hne | Hdim]; [contradiction |].
    apply Nat.ltb_lt in Hdim. rewrite Hdim. reflexivity.
Qed.

End EntryPoint.

Lemma zernike_output_size_witness :
  exists out,
    @zernike nan_special (mk_ndarray [1%nat; 2%nat] [1%R; 2%R])
      (mk_ndarray [1%nat; 2%nat] [0%R; 0%R]) [vector [1; 1; 1]] None = Ok out /\
    length (data out) = 6%nat /\ shape out = [3%nat; 2%nat].
Proof.
  eexists. split; [reflexivity |].
  destruct (@zernike_output_size nan_special
              (mk_ndarray [1%nat; 2%nat] [1%R; 2%R])
              (mk_ndarray [1%nat; 2%nat] [0%R; 0%R])
              [vector [1; 1; 1]] None _ eq_refl eq_refl)
    as (ns & ms & Hres & _ & Hlen & Hshape).
  injection Hres as <- <-. split; [exact Hlen | exact Hshape].
Defined.


Lemma zernike_malformed_selectors_witness :
  @zernike nan_special (mk_ndarray [1%nat] [1%R]) (mk_ndarray [1%nat] [0%R])
    [mk_ndarray [3%nat; 1%nat] [4; 5; 6]] None = Raise RuntimeError.
Proof.
  refine (proj1 (proj2 (proj2 (proj2
            (@zernike_malformed_selectors nan_special _ _ None)))) _ _ _).
  - reflexivity.
  - simpl. discriminate.
Defined.

(** ** Edge cases of the evaluator *)

Lemma fmul_one_r (x : npfloat) : fmul x (Fin 1) = x.
Proof.
  destruct x as [a | |]; simpl.
  - f_equal. apply Rmult_1_r.
  - rewrite is_zero_false by lra. reflexivity.
  - reflexivity.
Qed.

Lemma sum_squares_zeros {A : Type} (l : list A) :
  sum_squares (map (fun _ => 0%R) l) = 0%R.
Proof.
  induction l as [| a l IH]; simpl; [reflexivity |].
  rewrite IH. lra.
Qed.

Lemma sum_squares_indicator (r : list R) :
  sum_squares (map (fun x => if le_one x then 1%R else 0%R) r)
  = INR (count_inside r).
Proof.
  unfold count_inside. induction r as [| x r IH]; [reflexivity |].
  cbn [map sum_squares fold_right filter].
  fold (sum_squares (map (fun x => if le_one x then 1%R else 0%R) r)).
  rewrite IH. destruct (le_one x).
  - cbn [length]. rewrite S_INR. lra.
  - lra.
Qed.

Section EvaluatorEdges.

Context {special : scipy_special}.

Lemma angular_part_all_outside (r theta : list R) (n m : Z) :
  length theta = length r -> Forall (fun x => (1 < x)%R) r ->
  angular_part r theta n m = map (fun _ => Fin 0) r.
Proof.
  intros Hlen Hout.
  apply (nth_ext _ _ NaN NaN).
  - rewrite angular_part_length, length_map; auto.
  - intros i Hi. rewrite angular_part_length in Hi by exact Hlen.
    rewrite angular_part_outside; auto.
    + symmetry. exact (nth_map_default (fun _ => Fin 0) r i 0%R NaN Hi).
    + rewrite Forall_forall in Hout. apply Hout, nth_In, Hi.
Qed.

(** A grid with no sample inside the unit disk: with the default
    normalisation every returned value is [nan], for every degree pair;
    with [norm=False] every value is 0. *)
Theorem no_sample_inside_gives_nan (r theta : list R) (n m : Z) :
  length theta = length r -> Forall (fun x => (1 < x)%R) r ->
  (n - m) mod 2 = 0 ->
  _zernike r theta n m (norm_kwarg None) = map (fun _ => NaN) r /\
  _zernike r theta n m false = map (fun _ => Fin 0) r.
Proof.
  intros Hlen Hout Hpar. apply parity_of_difference in Hpar.
  assert (Hzero : _zernike r theta n m false = map (fun _ => Fin 0) r).
  { rewrite zernike_unnormalised by exact Hpar.
    apply angular_part_all_outside; assumption. }
  split; [| exact Hzero].
  simpl norm_kwarg. rewrite zernike_normalised by exact Hpar.
  rewrite Hzero.
  replace (linalg_norm (map (fun _ => Fin 0) r)) with (Fin 0).
  - rewrite map_map. apply map_ext. intros x. simpl.
    rewrite is_zero_true. reflexivity.
  - rewrite <- (map_map (fun _ => 0%R) Fin).
    rewrite linalg_norm_finite, sum_squares_zeros, sqrt_0. reflexivity.
Qed.

(** The polynomials of azimuthal degree 0 do not depend on the angles:
    without normalisation the result is the radial part, and with either
    setting of [norm] two angle arrays give the same result. *)
Theorem axisymmetric_ignores_theta (r theta theta' : list R) (n : Z) (norm : bool) :
  length theta = length r -> length theta' = length r ->
  (n mod 2 = 0 -> _zernike r theta n 0 false = _radial_zernike r n 0) /\
  _zernike r theta n 0 norm = _zernike r theta' n 0 norm.
Proof.
  intros Hlen Hlen'.
  assert (Hang : forall t, length t = length r ->
                           angular_part r t n 0 = _radial_zernike r n 0).
  { intros t Ht. apply (nth_ext _ _ NaN NaN).
    - rewrite angular_part_length, radial_zernike_length; auto.
    - intros i Hi. rewrite angular_part_length in Hi by exact Ht.
      unfold angular_part. cbn [Z.ltb Z.compare].
      rewrite imul_angular_nth by (rewrite ?radial_zernike_length; auto).
      rewrite Rmult_0_l, cos_0. apply fmul_one_r. }
  split.
  - intros Hn. rewrite zernike_unnormalised.
    + apply Hang, Hlen.
    + apply parity_of_difference. rewrite Z.sub_0_r. exact Hn.
  - destruct (Z.eq_dec (i64_sub 0 n mod 2) 0) as [Hpar | Hpar].
    + destruct norm.
      * rewrite !zernike_normalised, !zernike_unnormalised by exact Hpar.
        rewrite !Hang by assumption. reflexivity.
      * rewrite !zernike_unnormalised by exact Hpar.
        rewrite !Hang by assumption. reflexivity.
    + rewrite !zernike_odd_difference by exact Hpar. reflexivity.
Qed.

(** A pair of odd difference is not rejected by the evaluator: through
    the entry point called with [(n, m)] it yields an array of zeros of the
    squeezed shape of [r], with either setting of [norm]. *)
Theorem odd_pair_gives_zeros (r theta : ndarray R) (kwargs : option bool) (n m : Z) :
  (n - m) mod 2 = 1 -> (ndim r <= 2)%nat ->
  zernike r theta [scalar n; scalar m] kwargs
  = Ok (mk_ndarray (squeezed (shape r)) (map (fun _ => Fin 0) (data r))).
Proof.
  intros Hodd Hdim.
  assert (Hpar : i64_sub m n mod 2 <> 0).
  { intros H0. apply (proj1 (parity_of_difference n m)) in H0.
    rewrite H0 in Hodd. discriminate. }
  unfold zernike.
  replace (2 <? ndim r)%nat with false by (symmetry; apply Nat.ltb_ge; exact Hdim).
  assert (Hres : resolve_args [scalar n; scalar m] = Ok ([n], [m])) by reflexivity.
  rewrite Hres. cbn [bind fst snd combine map].
  rewrite zernike_odd_difference by exact Hpar.
  unfold squeeze, stack, squeezed. cbn [shape data concat length filter].
  cbn [Nat.eqb negb]. rewrite app_nil_r. reflexivity.
Qed.

(** The normalised piston is grid dependent: on a grid with [c > 0]
    samples inside the disk its value is [1 / sqrt c] inside and 0
    outside. *)
Theorem piston_normalised_value (r theta : list R) :
  length theta = length r -> (0 < count_inside r)%nat ->
  _zernike r theta 0 0 (norm_kwarg None)
  = map (fun x => if le_one x then Fin (1 / sqrt (INR (count_inside r)))
                  else Fin 0) r.
Proof.
  intros Hlen Hc. simpl norm_kwarg.
  rewrite zernike_normalised by reflexivity.
  rewrite piston_unnormalised by exact Hlen.
  set (ind := fun x : R => if le_one x then 1%R else 0%R).
  rewrite (map_ext (fun x => if le_one x then Fin 1 else Fin 0)
                   (fun x => Fin (ind x)))
    by (intros x; unfold ind; destruct (le_one x); reflexivity).
  rewrite <- (map_map ind Fin).
  rewrite linalg_norm_finite. unfold ind at 1. rewrite sum_squares_indicator.
  assert (HN : sqrt (INR (count_inside r)) <> 0%R).
  { intros H0. apply sqrt_eq_0 in H0; [| apply pos_INR].
    change 0%R with (INR 0) in H0. apply INR_eq in H0. lia. }
  rewrite !map_map. apply map_ext. intros x. simpl.
  rewrite (is_zero_false _ HN). unfold ind.
  destruct (le_one x); f_equal. unfold Rdiv. apply Rmult_0_l.
Qed.

End EvaluatorEdges.

Lemma no_sample_inside_gives_nan_witness :
  @_zernike nan_special [2%R; 3%R] [0%R; 1%R] 3 (-1) (norm_kwarg None)
  = map (fun _ => NaN) [2%R; 3%R] /\
  @_zernike nan_special [2%R; 3%R] [0%R; 1%R] 3 (-1) false
  = map (fun _ => Fin 0) [2%R; 3%R].
Proof.
  apply (@no_sample_inside_gives_nan nan_special).
  - reflexivity.
  - repeat constructor; lra.
  - reflexivity.
Defined.

Lemma axisymmetric_ignores_theta_witness :
  @_zernike nan_special [1%R; 2%R] [0%R; 1%R] 0 0 true
  = @_zernike nan_special [1%R; 2%R] [3%R; 4%R] 0 0 true.
Proof.
  apply (@axisymmetric_ignores_theta nan_special); reflexivity.
Defined.

Lemma odd_pair_gives_zeros_witness :
  @zernike nan_special (mk_ndarray [2%nat] [1%R; 2%R]) (mk_ndarray [2%nat] [0%R; 0%R])
    [scalar 3; scalar 2] None
  = Ok (mk_ndarray [2%nat] [Fin 0; Fin 0]).
Proof.
  apply (@odd_pair_gives_zeros nan_special
           (mk_ndarray [2%nat] [1%R; 2%R]) (mk_ndarray [2%nat] [0%R; 0%R])).
  - reflexivity.
  - unfold ndim. simpl. lia.
Defined.

Lemma count_inside_example : count_inside [1%R; 2%R; 0%R] = 2%nat.
Proof.
  unfold count_inside. simpl.
  rewrite (le_one_true 1), (le_one_false 2), (le_one_true 0) by lra.
  reflexivity.
Qed.

Lemma piston_normalised_value_witness :
  @_zernike nan_special [1%R; 2%R; 0%R] [0%R; 0%R; 0%R] 0 0 (norm_kwarg None)
  = map (fun x => if le_one x
                  then Fin (1 / sqrt (INR (count_inside [1%R; 2%R; 0%R])))
                  else Fin 0) [1%R; 2%R; 0%R].
Proof.
  apply (@piston_normalised_value nan_special).
  - reflexivity.
  - rewrite count_inside_example. lia.
Defined.

(** ** The radial part and the sign of the azimuthal degree *)

Section RadialSymmetry.

Context {special : scipy_special}.

(** The radial part is the same for [m] and [-m] as soon as the two scipy
    functions have the symmetries of the functions they compute: the
    binomial coefficient in its lower argument, the hypergeometric
    function in its two upper parameters. *)
Theorem radial_part_even_in_m (r : list R) (n m : Z) :
  (forall a b, binom a b = binom a (a - b)) ->
  (forall a b c z, hyp2f1 a b c z = hyp2f1 b a c z) ->
  - 2 ^ 62 < n < 2 ^ 62 -> - 2 ^ 62 < m < 2 ^ 62 -> (n - m) mod 2 = 0 ->
  _radial_zernike r n (- m) = _radial_zernike r n m.
Proof.
  intros Hbinom Hhyp Hn Hm Hpar.
  assert (H63 : 2 ^ 63 = 2 * 2 ^ 62) by reflexivity.
  unfold _radial_zernike.
  replace (- m =? 0) with (m =? 0)
    by (destruct (Z.eqb_spec m 0), (Z.eqb_spec (- m) 0); try reflexivity; lia).
  destruct ((m =? 0) && (n =? 0)); [reflexivity |].
  unfold i64_add, i64_sub.
  replace (n + - m) with (n - m) by lia.
  replace (n - - m) with (n + m) by lia.
  rewrite (wrap64_small (n - m)), (wrap64_small (n + m)) by lia.
  rewrite (wrap64_small (- (n - m))), (wrap64_small (- (n + m))) by lia.
  assert (Hhalf : (n - m) / 2 = n - (n + m) / 2).
  { pose proof (Z.div_mod (n - m) 2 ltac:(lia)) as Hd. rewrite Hpar in Hd.
    replace (n + m) with (n - m + m * 2) by lia.
    rewrite Z.div_add by lia. lia. }
  rewrite Hhalf, <- Hbinom.
  apply map_ext. intros x. destruct (le_one x); [| reflexivity].
  f_equal. apply Hhyp.
Qed.

End RadialSymmetry.

Lemma radial_part_even_in_m_witness :
  @_radial_zernike nan_special [1%R; 2%R] 3 (-1)
  = @_radial_zernike nan_special [1%R; 2%R] 3 1.
Proof.
  apply (@radial_part_even_in_m nan_special [1%R; 2%R] 3 1).
  - reflexivity.
  - reflexivity.
  - lia.
  - lia.
  - reflexivity.
Defined.

(** ** Round trips on arrays, both ways *)

Lemma valid_pair_has_rank (nm : Z * Z) :
  valid_pair (fst nm) (snd nm) -> fst nm <= 14 ->
  exists j, in_table j /\ noll_rank j = nm.
Proof.
  destruct nm as [n m]. cbn [fst snd]. intros Hv Hn.
  destruct (degrees_round_trip n m Hv Hn) as (j & Hj & _ & Hnd).
  exists j. split; [exact Hj |].
  unfold noll2degrees1 in Hnd.
  rewrite noll2degrees_in_table in Hnd by (constructor; [exact Hj | constructor]).
  simpl in Hnd. injection Hnd as Hfst Hsnd.
  destruct (noll_rank j) as [n' m']. simpl in *. congruence.
Qed.

(** [noll2degrees] followed by [degrees2noll] returns an array of indices
    of the table unchanged, in the same order. *)
Theorem indices_round_trip (js : list Z) :
  Forall in_table js ->
  exists ns ms,
    noll2degrees (IntArr js) = Ok (ns, ms) /\
    degrees2noll (IntArr ns) (IntArr ms) = Ok js.
Proof.
  intros Hjs. eexists _, _. split.
  - apply noll2degrees_in_table, Hjs.
  - apply degrees2noll_of_ranks, Hjs.
Qed.

Lemma indices_round_trip_witness :
  exists ns ms,
    noll2degrees (IntArr [11; 4; 4; 120]) = Ok (ns, ms) /\
    degrees2noll (IntArr ns) (IntArr ms) = Ok [11; 4; 4; 120].
Proof.
  apply indices_round_trip. repeat constructor; unfold in_table; lia.
Defined.

(** [degrees2noll] followed by [noll2degrees] returns two arrays of valid
    degree pairs of radial degree at most 14 unchanged, in the same
    order. *)
Theorem pairs_round_trip (nms : list (Z * Z)) :
  Forall (fun nm => valid_pair (fst nm) (snd nm) /\ fst nm <= 14) nms ->
  exists js,
    degrees2noll (IntArr (map fst nms)) (IntArr (map snd nms)) = Ok js /\
    Forall in_table js /\
    noll2degrees (IntArr js) = Ok (map fst nms, map snd nms).
Proof.
  intros Hnms.
  assert (Hjs : exists js, Forall in_table js /\ map noll_rank js = nms).
  { induction Hnms as [| nm nms (Hv & Hn) _ (js & Hall & Hmap)].
    - exists []. split; constructor.
    - destruct (valid_pair_has_rank nm Hv Hn) as (j & Hj & Hrank).
      exists (j :: js). split; [constructor; assumption |].
      simpl. rewrite Hrank, Hmap. reflexivity. }
  destruct Hjs as (js & Hall & <-).
  exists js. rewrite !map_map. split; [| split].
  - apply degrees2noll_of_ranks, Hall.
  - exact Hall.
  - apply noll2degrees_in_table, Hall.
Qed.

Lemma pairs_round_trip_witness :
  exists js,
    degrees2noll (IntArr (map fst [(4, 0); (3, -3); (14, 14)]))
                 (IntArr (map snd [(4, 0); (3, -3); (14, 14)])) = Ok js /\
    Forall in_table js /\
    noll2degrees (IntArr js)
    = Ok (map fst [(4, 0); (3, -3); (14, 14)], map snd [(4, 0); (3, -3); (14, 14)]).
Proof.
  apply pairs_round_trip.
  repeat constructor; cbn [fst snd]; try lia; reflexivity.
Defined.

(** ** The named polynomials of the demonstration *)



(** ** Normalisation on a grid with a sample at the origin *)

Lemma dot_from_nan (u : list npfloat) :
  fold_left (fun acc xi => fadd_squares acc (fmul xi xi)) u NaN = NaN.
Proof.
  induction u as [| x u IH]; [reflexivity |]. exact IH.
Qed.

Lemma dot_with_nan (u : list npfloat) (acc : npfloat) :
  In NaN u ->
  fold_left (fun acc xi => fadd_squares acc (fmul xi xi)) u acc = NaN.
Proof.
  revert acc. induction u as [| x u IH]; intros acc Hin; [contradiction |].
  destruct Hin as [-> | Hin].
  - simpl. replace (fadd_squares acc NaN) with NaN by (destruct acc; reflexivity).
    apply dot_from_nan.
  - simpl. apply IH, Hin.
Qed.

Lemma fdiv_by_nan (z : npfloat) : fdiv z NaN = NaN.
Proof. destruct z; reflexivity. Qed.

Section NormalisationAtOrigin.

Context {special : scipy_special}.

Lemma origin_value_cases :
  nth 0 (_zernike [0%R] [0%R] 2 0 false) NaN = Fin 0 \/
  nth 0 (_zernike [0%R] [0%R] 2 0 false) NaN = NaN.
Proof.
  rewrite zernike_unnormalised by reflexivity.
  unfold angular_part. cbn [Z.ltb Z.compare].
  rewrite imul_angular_nth by (rewrite ?radial_zernike_length; simpl; lia).
  rewrite radial_origin_defocus.
  apply fmul_zero_l, fmul_zero_l, fmul_zero_r.
Qed.

(** One [nan] before the normalisation makes every normalised value [nan]:
    the norm is [nan], and so is every quotient by it. *)
Lemma nan_spreads_through_normalisation (r theta : list R) (n m : Z) :
  (n - m) mod 2 = 0 ->
  In NaN (_zernike r theta n m false) ->
  _zernike r theta n m (norm_kwarg None)
  = map (fun _ => NaN) (_zernike r theta n m false).
Proof.
  intros Hpar Hin. apply parity_of_difference in Hpar.
  simpl norm_kwarg. rewrite zernike_normalised by exact Hpar.
  unfold linalg_norm. rewrite dot_with_nan by exact Hin.
  apply map_ext. intros z. apply fdiv_by_nan.
Qed.

(** C5, the code on a grid with a sample at the origin.  On the one-point
    grid [r = 0.0], [theta = 0.0], where the defocus polynomial (2, 0) has
    the value -1 and hence norm 1, the default normalisation returns [nan]:
    the value before normalisation is 0 or [nan] whatever scipy returns (the
    factor [0.0 ** 2]), so the norm is 0 or [nan] and the quotient is [nan].
    The norm of the result is [nan], not 1. *)
Theorem normalisation_fails_at_origin :
  radial_polynomial 2 0 0 = (-1)%R /\
  _zernike [0%R] [0%R] 2 0 (norm_kwarg None) = [NaN] /\
  linalg_norm (_zernike [0%R] [0%R] 2 0 (norm_kwarg None)) = NaN.
Proof.
  split; [unfold radial_polynomial; simpl; lra |].
  assert (Hres : _zernike [0%R] [0%R] 2 0 (norm_kwarg None) = [NaN]).
  { simpl norm_kwarg. rewrite zernike_normalised by reflexivity.
    pose proof origin_value_cases as Hv.
    pose proof (zernike_length [0%R] [0%R] 2 0 false eq_refl) as Hlen.
    destruct (_zernike [0%R] [0%R] 2 0 false) as [| v [| w u]];
      try discriminate Hlen.
    cbn [nth] in Hv. destruct Hv as [-> | ->].
    - unfold linalg_norm. simpl.
      replace (0 + 0 * 0)%R with 0%R by lra.
      rewrite sqrt_0. simpl. rewrite is_zero_true. reflexivity.
    - reflexivity. }
  rewrite Hres. split; reflexivity.
Qed.

End NormalisationAtOrigin.
